(** * node-superops: the request execution pipeline

    A shallow embedding of the request pipeline of the client:
    - [Pagination]: src/pagination.ts, the item-mode and page-mode
      cursor iterators;
    - [RateLimit]: src/rate-limiter.ts, the sliding-window limiter;
    - [Retry]: src/rate-limiter.ts, [retryWithBackoff];
    - [Errors]: src/errors.ts, [createErrorFromGraphQL], with
      [handleError] of src/graphql-client.ts;
    - [Client]: src/graphql-client.ts, [execute];
    - [Resources]: src/resources/base.ts, [createListIterator].

    Conventions of the embedding.
    - A JavaScript [number] that holds a count, a size or a millisecond
      instant is an integer of [Z]; the ratios of the rate limiter and the
      jitter of the retry policy are exact rationals of [Q] (rounding of
      IEEE doubles is not modelled).
    - An optional field is an [option]; [undefined] is [None].
    - A promise-returning callback is a function over an explicit world
      [W]: it returns either a value or the thrown failure, and the next
      world.
    - [Date.now()] is an argument [now] of every method of the limiter: a
      method runs synchronously, so it reads one instant. *)

From Stdlib Require Import String ZArith QArith Qround List Bool Lia Lqa Sorted.
From Stdlib Require Import DecimalString.
Import ListNotations.

Local Open Scope Z_scope.

(** [x || d] on an optional number: [undefined] and [0] are falsy. *)
Definition js_or (x : option Z) (d : Z) : Z :=
  match x with
  | None => d
  | Some n => if n =? 0 then d else n
  end.

(* ================================================================== *)
(** * Pagination (src/pagination.ts) *)
(* ================================================================== *)

Module Pagination.

Definition DEFAULT_PAGE_SIZE : Z := 50.
Definition MAX_PAGE_SIZE : Z := 100.

Record PageInfo := mkPageInfo {
  hasNextPage : bool;
  hasPreviousPage : bool;
  startCursor : option string;
  endCursor : option string
}.

Record Edge (T : Type) := mkEdge { node : T; cursor : string }.
Arguments mkEdge {T}.
Arguments node {T}.
Arguments cursor {T}.

Record Connection (T : Type) := mkConnection {
  edges : list (Edge T);
  pageInfo : PageInfo;
  totalCount : option Z
}.
Arguments mkConnection {T}.
Arguments edges {T}.
Arguments pageInfo {T}.
Arguments totalCount {T}.

(** The argument of a [PageFetcher]. *)
Record FetchParams := mkParams { first : Z; after : option string }.

Record PaginationOptions := mkOptions {
  pageSize : option Z;
  maxItems : option Z
}.

(** [Math.min(options.pageSize || DEFAULT_PAGE_SIZE, MAX_PAGE_SIZE)] *)
Definition resolvePageSize (options : PaginationOptions) : Z :=
  Z.min (js_or (pageSize options) DEFAULT_PAGE_SIZE) MAX_PAGE_SIZE.

(** The page size as the sentence "first = min(pageSize, 100), where
    pageSize defaults to 50 when not supplied" reads; compared with
    [resolvePageSize] below. *)
Definition stated_first (options : PaginationOptions) : Z :=
  Z.min (match pageSize options with
         | Some n => n
         | None => DEFAULT_PAGE_SIZE
         end) MAX_PAGE_SIZE.

(** What one [next()] call settles to. *)
Inductive IteratorResult (V E : Type) :=
| Yield (value : V)
| Done
| Throw (failure : E).
Arguments Yield {V E}.
Arguments Done {V E}.
Arguments Throw {V E}.

Section Iterators.

Variables T E W : Type.

(** [fetcher(params)]: resolves to a connection or rejects, and moves
    the world on. *)
Variable fetcher : FetchParams -> W -> (Connection T + E) * W.

(** The world together with the log of the fetcher calls made so far,
    oldest first.  The log is an observation of the model; the code does
    not keep it. *)
Record Env := mkEnv { world : W; calls : list FetchParams }.

Definition call_fetcher (p : FetchParams) (env : Env)
  : (Connection T + E) * Env :=
  let (r, w') := fetcher p (world env) in
  (r, mkEnv w' (calls env ++ [p])).

(** ** Item mode: [createCursorPaginatedIterator] *)

(** The variables the [next] closure captures. *)
Record CursorState := mkCursorState {
  currentItems : list T;
  currentIndex : nat;
  totalReturned : Z;
  hasMore : bool;
  endCursorVar : option string;
  pageInfoVar : option PageInfo
}.

Definition createCursorPaginatedIterator : CursorState :=
  mkCursorState [] 0 0 true None None.

(** [currentIndex++; totalReturned++] *)
Definition advance (st : CursorState) : CursorState :=
  mkCursorState (currentItems st) (S (currentIndex st))
    (totalReturned st + 1) (hasMore st) (endCursorVar st) (pageInfoVar st).

(** The closure state after [k] more items were taken from the
    buffer. *)
Definition taken (k : nat) (st : CursorState) : CursorState :=
  mkCursorState (currentItems st) (currentIndex st + k)
    (totalReturned st + Z.of_nat k) (hasMore st)
    (endCursorVar st) (pageInfoVar st).

(** The closure state right after a page was received. *)
Definition received (st : CursorState) (connection : Connection T)
  : CursorState :=
  mkCursorState (map node (edges connection)) 0 (totalReturned st)
    (hasNextPage (pageInfo connection)) (endCursor (pageInfo connection))
    (Some (pageInfo connection)).

(** How the [while] loop of [next] is left. *)
Inductive LoopExit :=
| LoopEnd          (* the condition became false *)
| LoopReturnDone   (* [return { done: true }] inside the body *)
| LoopThrow (failure : E).

Definition loop_condition (st : CursorState) : bool :=
  (length (currentItems st) <=? currentIndex st)%nat && hasMore st.

(** [while (currentIndex >= currentItems.length && hasMore) { ... }];
    [None] when [fuel] iterations were not enough. *)
Fixpoint fetch_loop (pageSz : Z) (fuel : nat) (st : CursorState) (env : Env)
  : option (LoopExit * CursorState * Env) :=
  if loop_condition st then
    match fuel with
    | O => None
    | S fuel' =>
        match call_fetcher (mkParams pageSz (endCursorVar st)) env with
        | (inr e, env') => Some (LoopThrow e, st, env')
        | (inl connection, env') =>
            let st' := received st connection in
            if (length (currentItems st') =? 0)%nat
            then Some (LoopReturnDone, st', env')
            else fetch_loop pageSz fuel' st' env'
        end
    end
  else Some (LoopEnd, st, env).

Definition max_reached (options : PaginationOptions) (st : CursorState) : bool :=
  match maxItems options with
  | Some m => m <=? totalReturned st
  | None => false
  end.

(** [iterator.next()] of the item-mode iterator, the loop run with
    [fuel]. *)
Definition cursor_next_fuel (fuel : nat) (options : PaginationOptions)
    (st : CursorState) (env : Env)
  : option (IteratorResult T E * CursorState * Env) :=
  if max_reached options st then Some (Done, st, env)
  else
    match fetch_loop (resolvePageSize options) fuel st env with
    | None => None
    | Some (LoopThrow e, st', env') => Some (Throw e, st', env')
    | Some (LoopReturnDone, st', env') => Some (Done, st', env')
    | Some (LoopEnd, st', env') =>
        if (length (currentItems st') <=? currentIndex st')%nat
        then Some (Done, st', env')
        else
          match nth_error (currentItems st') (currentIndex st') with
          | Some item => Some (Yield item, advance st', env')
          | None => Some (Done, st', env') (* index in range: not taken *)
          end
    end.

(** One iteration of the loop body always ends the loop (see
    [fetch_loop_fuel] below), so [next] runs it with fuel 1. *)
Definition cursor_next := cursor_next_fuel 1.

(** [toArray()]: [for await (const item of this) results.push(item)].
    The iterable hands out the one shared iterator, so the loop drives
    the closure state [st] it is given.  [None] when [fuel] calls of
    [next] did not reach the end. *)
Fixpoint cursor_toArray_from (options : PaginationOptions) (fuel : nat)
    (results : list T) (st : CursorState) (env : Env)
  : option ((list T + E) * CursorState * Env) :=
  match fuel with
  | O => None
  | S fuel' =>
      match cursor_next options st env with
      | None => None
      | Some (Yield item, st', env') =>
          cursor_toArray_from options fuel' (results ++ [item]) st' env'
      | Some (Done, st', env') => Some (inl results, st', env')
      | Some (Throw e, st', env') => Some (inr e, st', env')
      end
  end.

Definition cursor_toArray options fuel st env :=
  cursor_toArray_from options fuel [] st env.

(** Any number of [next()] calls on the same iterator, results
    dropped. *)
Inductive cursor_reaches (options : PaginationOptions)
  : CursorState * Env -> CursorState * Env -> Prop :=
| cursor_reaches_here : forall s, cursor_reaches options s s
| cursor_reaches_next : forall s r st' env' s'',
    cursor_next options (fst s) (snd s) = Some (r, st', env') ->
    cursor_reaches options (st', env') s'' ->
    cursor_reaches options s s''.

(** The paths through one [next()] call, as a relation. *)
Inductive cursor_step (options : PaginationOptions)
  : CursorState * Env -> IteratorResult T E -> CursorState * Env -> Prop :=
| step_capped : forall st env,
    max_reached options st = true ->
    cursor_step options (st, env) Done (st, env)
| step_buffered : forall st env item,
    max_reached options st = false ->
    nth_error (currentItems st) (currentIndex st) = Some item ->
    cursor_step options (st, env) (Yield item) (advance st, env)
| step_exhausted : forall st env,
    max_reached options st = false ->
    (length (currentItems st) <= currentIndex st)%nat ->
    hasMore st = false ->
    cursor_step options (st, env) Done (st, env)
| step_fetch_throw : forall st env e w',
    max_reached options st = false ->
    (length (currentItems st) <= currentIndex st)%nat ->
    hasMore st = true ->
    fetcher (mkParams (resolvePageSize options) (endCursorVar st)) (world env)
    = (inr e, w') ->
    cursor_step options (st, env) (Throw e)
      (st, mkEnv w' (calls env
                     ++ [mkParams (resolvePageSize options) (endCursorVar st)]))
| step_fetch_empty : forall st env c w',
    max_reached options st = false ->
    (length (currentItems st) <= currentIndex st)%nat ->
    hasMore st = true ->
    fetcher (mkParams (resolvePageSize options) (endCursorVar st)) (world env)
    = (inl c, w') ->
    edges c = [] ->
    cursor_step options (st, env) Done
      (received st c,
       mkEnv w' (calls env
                 ++ [mkParams (resolvePageSize options) (endCursorVar st)]))
| step_fetch_page : forall st env c w' x xs,
    max_reached options st = false ->
    (length (currentItems st) <= currentIndex st)%nat ->
    hasMore st = true ->
    fetcher (mkParams (resolvePageSize options) (endCursorVar st)) (world env)
    = (inl c, w') ->
    edges c = x :: xs ->
    cursor_step options (st, env) (Yield (node x))
      (advance (received st c),
       mkEnv w' (calls env
                 ++ [mkParams (resolvePageSize options) (endCursorVar st)])).

(** ** Page mode: [createPageIterator] *)

Record PageState := mkPageState {
  pgHasMore : bool;
  pgEndCursor : option string
}.

Definition createPageIterator : PageState := mkPageState true None.

Definition page_next (options : PaginationOptions)
    (st : PageState) (env : Env)
  : IteratorResult (Connection T) E * PageState * Env :=
  if negb (pgHasMore st) then (Done, st, env)
  else
    match call_fetcher (mkParams (resolvePageSize options) (pgEndCursor st)) env with
    | (inr e, env') => (Throw e, st, env')
    | (inl connection, env') =>
        let st' := mkPageState (hasNextPage (pageInfo connection))
                     (endCursor (pageInfo connection)) in
        if (length (edges connection) =? 0)%nat
        then (Done, st', env')
        else (Yield connection, st', env')
    end.

Inductive page_reaches (options : PaginationOptions)
  : PageState * Env -> PageState * Env -> Prop :=
| page_reaches_here : forall s, page_reaches options s s
| page_reaches_next : forall s r st' env' s'',
    page_next options (fst s) (snd s) = (r, st', env') ->
    page_reaches options (st', env') s'' ->
    page_reaches options s s''.

(** [toArray()] of the page iterator:
    [for await (const page of this) results.push(page)]. *)
Fixpoint page_toArray_from (options : PaginationOptions) (fuel : nat)
    (results : list (Connection T)) (st : PageState) (env : Env)
  : option ((list (Connection T) + E) * PageState * Env) :=
  match fuel with
  | O => None
  | S fuel' =>
      match page_next options st env with
      | (Yield page, st', env') =>
          page_toArray_from options fuel' (results ++ [page]) st' env'
      | (Done, st', env') => Some (inl results, st', env')
      | (Throw e, st', env') => Some (inr e, st', env')
      end
  end.

Definition page_toArray options fuel st env :=
  page_toArray_from options fuel [] st env.

(** [collectAll(fetcher, options)] *)
Definition collectAll (options : PaginationOptions) (fuel : nat) (env : Env)
  : option ((list T + E) * CursorState * Env) :=
  cursor_toArray options fuel createCursorPaginatedIterator env.

(** [take(fetcher, count, options)]: [{ ...options, maxItems: count }]. *)
Definition take (count : Z) (options : PaginationOptions) (fuel : nat)
    (env : Env)
  : option ((list T + E) * CursorState * Env) :=
  cursor_toArray (mkOptions (pageSize options) (Some count)) fuel
    createCursorPaginatedIterator env.

(** A server that, asked with page size [sz] from cursor [after] in
    world [w], serves the non-empty pages [pages] one after the other,
    each but the last with [hasNextPage = true], and ends in world
    [w']. *)
Inductive page_chain (sz : Z)
  : option string -> W -> list (Connection T) -> W -> Prop :=
| chain_last : forall after w c w',
    fetcher (mkParams sz after) w = (inl c, w') ->
    edges c <> [] ->
    hasNextPage (pageInfo c) = false ->
    page_chain sz after w [c] w'
| chain_more : forall after w c w1 cs w',
    fetcher (mkParams sz after) w = (inl c, w1) ->
    edges c <> [] ->
    hasNextPage (pageInfo c) = true ->
    page_chain sz (endCursor (pageInfo c)) w1 cs w' ->
    page_chain sz after w (c :: cs) w'.

End Iterators.

(** The requests that walk [pages] from cursor [after]: each passes the
    [endCursor] of the page before. *)
Fixpoint chain_calls {T : Type} (sz : Z) (after : option string)
    (pages : list (Connection T)) : list FetchParams :=
  match pages with
  | [] => []
  | c :: rest =>
      mkParams sz after :: chain_calls sz (endCursor (pageInfo c)) rest
  end.

(** The items of [pages], page after page. *)
Definition items_of {T : Type} (pages : list (Connection T)) : list T :=
  concat (map (fun c => map node (edges c)) pages).

(** *** Scenarios used to run the model *)

(** A fetcher that replays a fixed list of pages and rejects once they
    are used up; its world is the number of calls received. *)
Definition scripted {T : Type} (pages : list (Connection T))
  : FetchParams -> nat -> (Connection T + string) * nat :=
  fun _ k =>
    match nth_error pages k with
    | Some c => (inl c, S k)
    | None => (inr "no more pages"%string, S k)
    end.

(** A page of string items, each edge's cursor being the item itself. *)
Definition page_of (items : list string) (more : bool) (cur : option string)
  : Connection string :=
  mkConnection (map (fun x => mkEdge x x) items)
    (mkPageInfo more false None cur) None.

Arguments mkEnv {W}.
Arguments world {W}.
Arguments calls {W}.
Arguments mkCursorState {T}.
Arguments currentItems {T}.
Arguments currentIndex {T}.
Arguments totalReturned {T}.
Arguments hasMore {T}.
Arguments endCursorVar {T}.
Arguments pageInfoVar {T}.
Arguments createCursorPaginatedIterator {T}.
Arguments LoopEnd {E}.
Arguments LoopReturnDone {E}.
Arguments LoopThrow {E}.
Arguments loop_condition {T}.
Arguments max_reached {T}.
Arguments call_fetcher {T E W}.
Arguments fetch_loop {T E W}.
Arguments cursor_next_fuel {T E W}.
Arguments cursor_next {T E W}.
Arguments cursor_toArray_from {T E W}.
Arguments cursor_toArray {T E W}.
Arguments cursor_reaches {T E W}.
Arguments cursor_step {T E W}.
Arguments advance {T}.
Arguments taken {T}.
Arguments received {T}.
Arguments page_next {T E W}.
Arguments page_toArray_from {T E W}.
Arguments page_toArray {T E W}.
Arguments collectAll {T E W}.
Arguments take {T E W}.
Arguments page_chain {T E W}.
Arguments page_reaches {T E W}.

End Pagination.

(* ================================================================== *)
(** * Rate limiter (src/rate-limiter.ts, class [RateLimiter]) *)
(* ================================================================== *)

Module RateLimit.

Record RateLimitConfig := mkConfig {
  enabled : bool;
  maxRequests : Z;
  windowMs : Z;
  throttleThreshold : Q;
  retryAfterMs : Z;
  maxRetries : Z
}.

(** [DEFAULT_RATE_LIMIT_CONFIG] of src/types/common.ts. *)
Definition DEFAULT_RATE_LIMIT_CONFIG : RateLimitConfig :=
  mkConfig true 800 60000 (8 # 10) 5000 3.

Record RequestTimestamp := mkStamp { timestamp : Z }.

Record RateLimiter := mkLimiter {
  config : RateLimitConfig;
  requests : list RequestTimestamp
}.

(** [new RateLimiter(config)] *)
Definition create (cfg : RateLimitConfig) : RateLimiter := mkLimiter cfg [].

(** A method: reads the clock once, returns a value and the limiter as
    it leaves it. *)
Definition Method (A : Type) : Type := Z -> RateLimiter -> A * RateLimiter.

Definition ret {A} (a : A) : Method A := fun _ rl => (a, rl).

Definition bind {A B} (m : Method A) (k : A -> Method B) : Method B :=
  fun now rl => let (a, rl') := m now rl in k a now rl'.

Notation "x <- m ;; k" := (bind m (fun x => k))
  (at level 61, m at next level, right associativity).
Notation "m ;;; k" := (bind m (fun _ => k))
  (at level 61, right associativity).

Definition getConfig : Method RateLimitConfig := fun _ rl => (config rl, rl).
Definition getRequests : Method (list RequestTimestamp) :=
  fun _ rl => (requests rl, rl).
Definition dateNow : Method Z := fun now rl => (now, rl).

(** [while (requests.length > 0 && requests[0].timestamp < cutoff)
      requests.shift()] *)
Fixpoint shift_while (cutoff : Z) (rs : list RequestTimestamp)
  : list RequestTimestamp :=
  match rs with
  | [] => []
  | r :: rest =>
      if timestamp r <? cutoff then shift_while cutoff rest else rs
  end.

Definition pruneOldRequests : Method unit :=
  fun now rl =>
    let cutoff := now - windowMs (config rl) in
    (tt, mkLimiter (config rl) (shift_while cutoff (requests rl))).

(** [get currentCount()] *)
Definition currentCount : Method Z :=
  pruneOldRequests ;;;
  rs <- getRequests ;;
  ret (Z.of_nat (length rs)).

(** [get remaining()] *)
Definition remaining : Method Z :=
  cfg <- getConfig ;;
  n <- currentCount ;;
  ret (Z.max 0 (maxRequests cfg - n)).

(** [currentCount / maxRequests] *)
Definition usedRatioOf (n : Z) (cfg : RateLimitConfig) : Q :=
  (inject_Z n / inject_Z (maxRequests cfg))%Q.

(** [get isThrottling()] *)
Definition isThrottling : Method bool :=
  cfg <- getConfig ;;
  if negb (enabled cfg) then ret false
  else
    n <- currentCount ;;
    ret (Qle_bool (throttleThreshold cfg) (usedRatioOf n cfg)).

(** [get isLimited()] *)
Definition isLimited : Method bool :=
  cfg <- getConfig ;;
  if negb (enabled cfg) then ret false
  else
    n <- currentCount ;;
    ret (maxRequests cfg <=? n).

(** [recordRequest()] *)
Definition recordRequest : Method unit :=
  fun now rl =>
    if negb (enabled (config rl)) then (tt, rl)
    else
      let (_, rl') := pruneOldRequests now rl in
      (tt, mkLimiter (config rl') (requests rl' ++ [mkStamp now])).

(** The delay scaled by the used ratio, for a count [n]. *)
Definition scaled (cfg : RateLimitConfig) (n : Z) : Z :=
  Qfloor ((usedRatioOf n cfg - throttleThreshold cfg)
          / (1 - throttleThreshold cfg)
          * inject_Z (retryAfterMs cfg)).

(** The last statements of [getDelayMs]: throttling but not limited. *)
Definition scaledDelay (cfg : RateLimitConfig) : Method Z :=
  n <- currentCount ;;
  let usedRatio := usedRatioOf n cfg in
  let throttleRatio :=
    ((usedRatio - throttleThreshold cfg) / (1 - throttleThreshold cfg))%Q in
  ret (Qfloor (throttleRatio * inject_Z (retryAfterMs cfg))).

(** [getDelayMs()] *)
Definition getDelayMs : Method Z :=
  cfg <- getConfig ;;
  if negb (enabled cfg) then ret 0
  else
    pruneOldRequests ;;;
    throttling <- isThrottling ;;
    if negb throttling then ret 0
    else
      limited <- isLimited ;;
      rs <- getRequests ;;
      match limited, rs with
      | true, oldestRequest :: _ =>
          (* [this.isLimited && this.requests.length > 0] *)
          now <- dateNow ;;
          let expireTime := timestamp oldestRequest + windowMs cfg in
          let waitTime := expireTime - now in
          ret (Z.max 0 waitTime)
      | _, _ => scaledDelay cfg
      end.

(** [waitIfNeeded()]: the delay it goes to sleep for, if any; the sleep
    itself is the caller's world. *)
Definition waitIfNeeded : Method (option Z) :=
  delay <- getDelayMs ;;
  ret (if 0 <? delay then Some delay else None).

(** [reset()] *)
Definition reset : Method unit :=
  fun _ rl => (tt, mkLimiter (config rl) []).



(** A sequence of [recordRequest()] calls, one at each instant of
    [times], in order. *)
Fixpoint recordAll (times : list Z) (rl : RateLimiter) : RateLimiter :=
  match times with
  | [] => rl
  | t :: rest => recordAll rest (snd (recordRequest t rl))
  end.

End RateLimit.

(* ================================================================== *)
(** * Retry policy (src/rate-limiter.ts, [retryWithBackoff]) *)
(* ================================================================== *)

Module Retry.

Record RetryConfig (E : Type) := mkRetryConfig {
  maxRetries : Z;
  baseDelayMs : Z;
  maxDelayMs : option Z;
  shouldRetry : option (E -> bool)
}.
Arguments mkRetryConfig {E}.
Arguments maxRetries {E}.
Arguments baseDelayMs {E}.
Arguments maxDelayMs {E}.
Arguments shouldRetry {E}.

(** How the returned promise settles; [lastError] is [undefined] until a
    first failure is caught, so what is thrown is an [option]. *)
Inductive Outcome (T E : Type) :=
| Resolves (value : T)
| Rejects (lastError : option E).
Arguments Resolves {T E}.
Arguments Rejects {T E}.

Section RetryWithBackoff.

Variables T E W : Type.

(** [fn()]: one invocation of the operation. *)
Variable fn : W -> (T + E) * W.

(** [Math.random()]: the value of the k-th draw. *)
Variable random : nat -> Q.

(** What the world becomes while [setTimeout] waits [ms] milliseconds. *)
Variable sleep : Q -> W -> W.

(** The world, the outcome of every invocation of [fn] so far and every
    delay waited so far, oldest first.  The two logs are observations of
    the model. *)
Record Env := mkEnv {
  world : W;
  attempts : list (T + E);
  sleeps : list Q
}.

(** [config.shouldRetry && !config.shouldRetry(lastError)] *)
Definition refuses (cfg : RetryConfig E) (error : E) : bool :=
  match shouldRetry cfg with
  | Some p => negb (p error)
  | None => false
  end.

(** [Math.min(baseDelayMs * Math.pow(2, attempt), maxDelayMs || 60000)] *)
Definition backoffDelay (cfg : RetryConfig E) (attempt : Z) : Z :=
  Z.min (baseDelayMs cfg * 2 ^ attempt) (js_or (maxDelayMs cfg) 60000).

(** [for (let attempt = ...; attempt <= config.maxRetries; attempt++)]
    and the [throw lastError] after it; [None] when [fuel] iterations
    were not enough. *)
Fixpoint retry_loop (cfg : RetryConfig E) (fuel : nat) (attempt : Z)
    (lastError : option E) (env : Env) : option (Outcome T E * Env) :=
  if attempt <=? maxRetries cfg then
    match fuel with
    | O => None
    | S fuel' =>
        let (r, w') := fn (world env) in
        let env1 := mkEnv w' (attempts env ++ [r]) (sleeps env) in
        match r with
        | inl value => Some (Resolves value, env1)
        | inr error =>
            if refuses cfg error then Some (Rejects (Some error), env1)
            else if attempt =? maxRetries cfg
            then Some (Rejects (Some error), env1)
            else
              let delay := backoffDelay cfg attempt in
              let jitter :=
                (random (length (sleeps env1)) * inject_Z delay * (1 # 10))%Q in
              let ms := (inject_Z delay + jitter)%Q in
              let env2 := mkEnv (sleep ms (world env1)) (attempts env1)
                            (sleeps env1 ++ [ms]) in
              retry_loop cfg fuel' (attempt + 1) (Some error) env2
        end
    end
  else Some (Rejects lastError, env).

(** [retryWithBackoff(fn, config)]; the loop body runs for
    [attempt = 0 .. maxRetries] at most. *)
Definition retryWithBackoff (cfg : RetryConfig E) (env : Env)
  : option (Outcome T E * Env) :=
  retry_loop cfg (Z.to_nat (maxRetries cfg + 1)) 0 None env.

(** What the promise settles to when [r] is the result of the last
    invocation. *)
Definition settle (r : T + E) : Outcome T E :=
  match r with
  | inl value => Resolves value
  | inr error => Rejects (Some error)
  end.

(** The wait after the failure of attempt [i], when it is also the
    [i]-th wait: the backoff delay plus its jitter. *)
Definition waitAt (cfg : RetryConfig E) (i : nat) : Q :=
  (inject_Z (backoffDelay cfg (Z.of_nat i))
   + random i * inject_Z (backoffDelay cfg (Z.of_nat i)) * (1 # 10))%Q.

(** A failure that the loop goes on from: [shouldRetry] did not refuse
    it. *)
Definition retried (cfg : RetryConfig E) (r : T + E) : Prop :=
  exists error, r = inr error /\ refuses cfg error = false.

(** An operation that fails whenever it is invoked. *)
Definition always_fails : Prop :=
  forall w, exists e w', fn w = (inr e, w').

(** [shouldRetry] is absent or answers true. *)
Definition never_refuses (cfg : RetryConfig E) : Prop :=
  forall p e, shouldRetry cfg = Some p -> p e = true.

End RetryWithBackoff.

(** *** Scenario used to run the model *)

(** An operation that always fails; the failure carries the number of
    earlier invocations, which is also the world. *)
Definition failing : nat -> (unit + nat) * nat :=
  fun k => (inr k, S k).

(** An operation that fails on its first [k] invocations and succeeds
    from then on; the world is the number of earlier invocations. *)
Definition flaky {T E : Type} (k : nat) (failure : nat -> E) (value : T)
  : nat -> (T + E) * nat :=
  fun n => (if (n <? k)%nat then inr (failure n) else inl value, S n).

Arguments settle {T E}.
Arguments waitAt {E}.
Arguments retried {T E}.
Arguments mkEnv {T E W}.
Arguments world {T E W}.
Arguments attempts {T E W}.
Arguments sleeps {T E W}.
Arguments refuses {E}.
Arguments backoffDelay {E}.
Arguments retry_loop {T E W}.
Arguments retryWithBackoff {T E W}.
Arguments always_fails {T E W}.
Arguments never_refuses {E}.

End Retry.

(* ================================================================== *)
(** * Error classes (src/errors.ts) and [handleError]
      (src/graphql-client.ts) *)
(* ================================================================== *)

Module Errors.

Local Open Scope string_scope.

(** [`${n}`] for an integer [n]. *)
Definition show_Z (n : Z) : string := NilZero.string_of_int (Z.to_int n).

(** [s || d] on an optional string: [undefined] and [''] are falsy. *)
Definition str_or (s : option string) (d : string) : string :=
  match s with
  | None => d
  | Some x => if (x =? "")%string then d else x
  end.

(** [case a: case b: ...] of a [switch] on a string. *)
Definition one_of (code : string) (cases : list string) : bool :=
  existsb (String.eqb code) cases.

(** An element of [path?: Array<string | number>]. *)
Inductive PathSegment :=
| Key (name : string)
| Index (n : Z).

Record GraphQLErrorExtension := mkExtension {
  extCode : string;
  extStatusCode : option Z;
  extMessage : string
}.

Record GraphQLError := mkGraphQLError {
  gqlMessage : string;
  gqlLocations : option (list (Z * Z));
  gqlPath : option (list PathSegment);
  gqlExtensions : option GraphQLErrorExtension
}.

(** What [handleError] reads of the value it caught:
    [{ response?: { errors?, status? }, message?, code? }], and whether
    it is an [Error]. *)
Record RawResponse := mkRawResponse {
  respErrors : option (list GraphQLError);
  respStatus : option Z
}.

Record Thrown := mkThrown {
  isErrorInstance : bool;
  thrownResponse : option RawResponse;
  thrownMessage : option string;
  thrownCode : option string
}.

(** The [response: unknown] an error keeps: the response of the caught
    value, or the caught value itself. *)
Inductive Payload :=
| OfResponse (r : RawResponse)
| OfThrown (t : Thrown).

(** The class an error object was constructed by ([instanceof]). *)
Inductive ErrorClass :=
| SuperOpsErrorClass
| AuthenticationErrorClass
| NotFoundErrorClass
| ValidationErrorClass
| RateLimitErrorClass
| ServerErrorClass
| NetworkErrorClass
| TimeoutErrorClass.

Record ValidationErrorDetail := mkDetail {
  field : string;
  detailMessage : string
}.

(** An error object.  The fields after [errGraphqlErrors] belong to one
    subclass each and are empty on the others. *)
Record SuperOpsError := mkError {
  errClass : ErrorClass;
  errName : string;
  errMessage : string;
  errCode : string;
  errResponse : option Payload;
  errGraphqlErrors : option (list GraphQLError);
  errValidationErrors : list ValidationErrorDetail;
  errRetryAfter : option Z;
  errCause : option Thrown;
  errTimeout : option Z
}.

(** A parameter [message: string = d]. *)
Definition default_to (d : string) (message : option string) : string :=
  match message with
  | Some m => m
  | None => d
  end.

(** [new SuperOpsError(message, code, response, graphqlErrors)] *)
Definition newSuperOpsError (message code : string)
    (response : option Payload) (graphqlErrors : option (list GraphQLError))
  : SuperOpsError :=
  mkError SuperOpsErrorClass "SuperOpsError" message code response
    graphqlErrors [] None None None.

Definition newAuthenticationError (message : option string)
    (response : option Payload) (graphqlErrors : option (list GraphQLError))
  : SuperOpsError :=
  mkError AuthenticationErrorClass "SuperOpsAuthenticationError"
    (default_to
       "Authentication failed. Check your API token and customer subdomain."
       message)
    "AUTHENTICATION_ERROR" response graphqlErrors [] None None None.

Definition newNotFoundError (message : option string)
    (response : option Payload) (graphqlErrors : option (list GraphQLError))
  : SuperOpsError :=
  mkError NotFoundErrorClass "SuperOpsNotFoundError"
    (default_to "Resource not found." message)
    "NOT_FOUND" response graphqlErrors [] None None None.

Definition newValidationError (message : option string)
    (validationErrors : list ValidationErrorDetail)
    (response : option Payload) (graphqlErrors : option (list GraphQLError))
  : SuperOpsError :=
  mkError ValidationErrorClass "SuperOpsValidationError"
    (default_to "Validation failed." message)
    "VALIDATION_ERROR" response graphqlErrors validationErrors None None None.

Definition newRateLimitError (message : option string) (retryAfter : option Z)
    (response : option Payload) (graphqlErrors : option (list GraphQLError))
  : SuperOpsError :=
  mkError RateLimitErrorClass "SuperOpsRateLimitError"
    (default_to "Rate limit exceeded." message)
    "RATE_LIMITED" response graphqlErrors [] retryAfter None None.

Definition newServerError (message : option string)
    (response : option Payload) (graphqlErrors : option (list GraphQLError))
  : SuperOpsError :=
  mkError ServerErrorClass "SuperOpsServerError"
    (default_to "Server error occurred." message)
    "SERVER_ERROR" response graphqlErrors [] None None None.

Definition newNetworkError (message : option string) (cause : option Thrown)
  : SuperOpsError :=
  mkError NetworkErrorClass "SuperOpsNetworkError"
    (default_to "Network error occurred." message)
    "NETWORK_ERROR" None None [] None cause None.

Definition newTimeoutError (message : option string) (timeout : Z)
  : SuperOpsError :=
  mkError TimeoutErrorClass "SuperOpsTimeoutError"
    (default_to "Request timed out." message)
    "TIMEOUT" None None [] None None (Some timeout).

(** [error.path.join('.')] *)
Definition joinPath (path : list PathSegment) : string :=
  String.concat "."
    (map (fun segment =>
            match segment with
            | Key name => name
            | Index n => show_Z n
            end) path).

(** The loop of the validation case: one detail for each error that
    has a non-empty path, in order. *)
Definition validationDetails (errors : list GraphQLError)
  : list ValidationErrorDetail :=
  flat_map (fun error =>
              match gqlPath error with
              | Some (segment :: rest) =>
                  [mkDetail (joinPath (segment :: rest)) (gqlMessage error)]
              | _ => []
              end) errors.

(** [primaryError.extensions?.code || 'UNKNOWN'] *)
Definition primaryCode (primaryError : GraphQLError) : string :=
  str_or (option_map extCode (gqlExtensions primaryError)) "UNKNOWN".

(** [createErrorFromGraphQL(errors, response)] *)
Definition createErrorFromGraphQL (errors : list GraphQLError)
    (response : option Payload) : SuperOpsError :=
  match errors with
  | [] => newSuperOpsError "Unknown error" "UNKNOWN" response None
  | primaryError :: _ =>
      let code := primaryCode primaryError in
      let message := gqlMessage primaryError in
      if one_of code ["UNAUTHENTICATED"; "UNAUTHORIZED"; "FORBIDDEN"] then
        newAuthenticationError (Some message) response (Some errors)
      else if one_of code ["NOT_FOUND"] then
        newNotFoundError (Some message) response (Some errors)
      else if one_of code ["BAD_USER_INPUT"; "VALIDATION_ERROR"] then
        newValidationError (Some message) (validationDetails errors)
          response (Some errors)
      else if one_of code ["RATE_LIMITED"] then
        newRateLimitError (Some message) None response (Some errors)
      else if one_of code ["INTERNAL_SERVER_ERROR"; "GRAPHQL_PARSE_FAILED";
                           "GRAPHQL_VALIDATION_FAILED"] then
        newServerError (Some message) response (Some errors)
      else newSuperOpsError message code response (Some errors)
  end.

(** [gqlError.code === a || gqlError.code === b] *)
Definition code_is (error : Thrown) (cases : list string) : bool :=
  match thrownCode error with
  | Some code => one_of code cases
  | None => false
  end.

(** [gqlError.response?.errors], [undefined] read as no errors. *)
Definition responseErrors (error : Thrown) : list GraphQLError :=
  match thrownResponse error with
  | Some response =>
      match respErrors response with
      | Some errors => errors
      | None => []
      end
  | None => []
  end.

(** [gqlError.response?.status] *)
Definition responseStatus (error : Thrown) : option Z :=
  match thrownResponse error with
  | Some response => respStatus response
  | None => None
  end.

(** [GraphQLClient.handleError(error)], [timeout] being
    [this.config.timeout]. *)
Definition handleError (timeout : Z) (error : Thrown) : SuperOpsError :=
  let response := option_map OfResponse (thrownResponse error) in
  match responseErrors error with
  | first :: rest => createErrorFromGraphQL (first :: rest) response
  | [] =>
      if code_is error ["ECONNREFUSED"; "ENOTFOUND"] then
        newNetworkError
          (Some ("Network error: "
                 ++ str_or (thrownMessage error) "Connection failed"))
          (if isErrorInstance error then Some error else None)
      else if code_is error ["ETIMEDOUT"; "TIMEOUT"] then
        newTimeoutError
          (Some ("Request timed out after " ++ show_Z timeout ++ "ms"))
          timeout
      else
        let generic :=
          newSuperOpsError
            (str_or (thrownMessage error) "Unknown error occurred")
            "UNKNOWN" (Some (OfThrown error)) None in
        match responseStatus error with
        | Some status =>
            if (status =? 0)%Z then generic
            else if (status =? 429)%Z then
              newRateLimitError (Some "Rate limit exceeded") None response None
            else if (500 <=? status)%Z then
              newServerError
                (Some ("Server error (HTTP " ++ show_Z status ++ ")"))
                response None
            else generic
        | None => generic
        end
  end.

(** The [shouldRetry] that [execute] passes:
    [error instanceof SuperOpsRateLimitError
     || error instanceof SuperOpsServerError]. *)
Definition isRetryable (error : SuperOpsError) : bool :=
  match errClass error with
  | RateLimitErrorClass | ServerErrorClass => true
  | _ => false
  end.

End Errors.

(* ================================================================== *)
(** * The client's [execute] (src/graphql-client.ts) *)
(* ================================================================== *)

Module Client.

Import Errors.

Section Execute.

(** [T]: what a request resolves to; [N]: the state of the network. *)
Variables T N : Type.

(** [this.client.request(document, variables)] on the network at an
    instant: the response or the value thrown, the network after it and
    the instant it settles. *)
Variable request : N -> Z -> (T + Thrown) * N * Z.

(** The instant a timer of [ms] milliseconds set at an instant fires. *)
Variable timer : Q -> Z -> Z.

Variable random : nat -> Q.

(** [this.config.timeout] *)
Variable timeout : Z.

(** What one [execute] call acts on: the clock, the client's limiter and
    the network.  Nothing else runs meanwhile. *)
Record World := mkWorld {
  clock : Z;
  limiter : RateLimit.RateLimiter;
  net : N
}.

(** The closure [executeRequest]: record, request, classify. *)
Definition executeRequest (w : World) : (T + SuperOpsError) * World :=
  let limiter' := snd (RateLimit.recordRequest (clock w) (limiter w)) in
  match request (net w) (clock w) with
  | (inl result, net', clock') => (inl result, mkWorld clock' limiter' net')
  | (inr error, net', clock') =>
      (inr (handleError timeout error), mkWorld clock' limiter' net')
  end.

(** [setTimeout] during a backoff wait. *)
Definition backoffSleep (ms : Q) (w : World) : World :=
  mkWorld (timer ms (clock w)) (limiter w) (net w).

(** The [RetryConfig] that [execute] builds from the limiter's
    configuration. *)
Definition executeRetryConfig (cfg : RateLimit.RateLimitConfig)
  : Retry.RetryConfig SuperOpsError :=
  Retry.mkRetryConfig (RateLimit.maxRetries cfg) (RateLimit.retryAfterMs cfg)
    (Some 60000) (Some isRetryable).

(** [execute(document, variables)] *)
Definition execute (w : World)
  : option (Retry.Outcome T SuperOpsError * Retry.Env T SuperOpsError World) :=
  let (waited, limiter1) := RateLimit.waitIfNeeded (clock w) (limiter w) in
  let w1 :=
    match waited with
    | Some delay => mkWorld (timer (inject_Z delay) (clock w)) limiter1 (net w)
    | None => mkWorld (clock w) limiter1 (net w)
    end in
  Retry.retryWithBackoff executeRequest random backoffSleep
    (executeRetryConfig (RateLimit.config (limiter w)))
    (Retry.mkEnv w1 [] []).

End Execute.

Arguments mkWorld {N}.
Arguments clock {N}.
Arguments limiter {N}.
Arguments net {N}.
Arguments executeRequest {T N}.
Arguments backoffSleep {N}.
Arguments execute {T N}.

(** *** Scenario used to run the model *)

(** A network that answers every request with the same thrown value,
    one millisecond later; its state is the number of requests. *)
Definition refusing (error : Thrown) : nat -> Z -> (unit + Thrown) * nat * Z :=
  fun n t => (inr error, S n, t + 1).

End Client.

(* ================================================================== *)
(** * List iterators of the resources (src/resources/base.ts) *)
(* ================================================================== *)

Module Resources.

Import Pagination.

Section ListIterator.

(** [T]: the items; [F], [O]: the filter and the order of a resource. *)
Variables T E W F O : Type.

(** [ListParams<TFilter, TOrderBy>] *)
Record ListParams := mkListParams {
  listFirst : option Z;
  listAfter : option string;
  listFilter : option F;
  listOrderBy : option O
}.

(** [Omit<ListParams<TFilter, TOrderBy>, 'first' | 'after'>] *)
Record ListSelection := mkListSelection {
  selFilter : option F;
  selOrderBy : option O
}.

(** [queryFn(params)] *)
Variable queryFn : ListParams -> W -> (Connection T + E) * W.

(** The fetcher that [createListIterator(queryFn, params)] hands to
    [createCursorPaginatedIterator]; [params] may be omitted. *)
Definition listFetcher (params : option ListSelection)
  : FetchParams -> W -> (Connection T + E) * W :=
  fun p w =>
    queryFn
      (mkListParams (Some (first p)) (after p)
         (match params with Some sel => selFilter sel | None => None end)
         (match params with Some sel => selOrderBy sel | None => None end))
      w.

(** [{ pageSize: DEFAULT_PAGE_SIZE }] *)
Definition listOptions : PaginationOptions :=
  mkOptions (Some DEFAULT_PAGE_SIZE) None.

(** A query that asks for 50 items and carries the filter and the
    order of [params]. *)
Definition well_formed_query (params : option ListSelection)
    (q : ListParams) : Prop :=
  listFirst q = Some 50
  /\ listFilter q
     = match params with Some sel => selFilter sel | None => None end
  /\ listOrderBy q
     = match params with Some sel => selOrderBy sel | None => None end.

(** [queryFn] made to keep, beside its world, the parameters of the
    queries it received, oldest first. *)
Definition logged
  : ListParams -> W * list ListParams
    -> (Connection T + E) * (W * list ListParams) :=
  fun q wl =>
    let (r, w') := queryFn q (fst wl) in
    (r, (w', snd wl ++ [q])).

End ListIterator.

Arguments mkListParams {F O}.
Arguments listFirst {F O}.
Arguments listAfter {F O}.
Arguments listFilter {F O}.
Arguments listOrderBy {F O}.
Arguments mkListSelection {F O}.
Arguments selFilter {F O}.
Arguments selOrderBy {F O}.
Arguments listFetcher {T E W F O}.
Arguments logged {T E W F O}.
Arguments well_formed_query {F O}.

End Resources.

(* ================================================================== *)
(** * Properties of the pagination engine *)
(* ================================================================== *)

Module PaginationProofs.
Import Pagination.

Section IteratorFacts.

Variables T E W : Type.
Variable fetcher : FetchParams -> W -> (Connection T + E) * W.

(** The loop body runs at most once: a non-empty page falsifies the
    condition, anything else leaves the function. *)
Lemma fetch_loop_fuel : forall sz fuel (st : CursorState T) (env : Env W),
  fetch_loop fetcher sz (S fuel) st env = fetch_loop fetcher sz 1 st env.
Proof.
  intros sz fuel st env. simpl.
  destruct (loop_condition st); [|reflexivity].
  destruct (call_fetcher fetcher _ env) as [[c|e] env']; [|reflexivity].
  unfold received; simpl.
  destruct (edges c) as [|x xs]; simpl; [reflexivity|].
  destruct fuel; reflexivity.
Qed.

Lemma cursor_next_fuel_enough :
  forall fuel options (st : CursorState T) (env : Env W),
  cursor_next_fuel fetcher (S fuel) options st env
  = cursor_next fetcher options st env.
Proof.
  intros. unfold cursor_next, cursor_next_fuel.
  rewrite fetch_loop_fuel. reflexivity.
Qed.

(** Every path of the relation is what [next()] computes ... *)
Lemma cursor_step_next : forall options s r s',
  cursor_step fetcher options s r s' ->
  cursor_next fetcher options (fst s) (snd s) = Some (r, fst s', snd s').
Proof.
  intros options s r s' Hstep.
  destruct Hstep as
    [st env Hmax | st env item Hmax Hnth | st env Hmax Hle Hmore
    | st env e w' Hmax Hle Hmore Hf | st env c w' Hmax Hle Hmore Hf Hc
    | st env c w' x xs Hmax Hle Hmore Hf Hc ];
    unfold cursor_next, cursor_next_fuel; simpl; rewrite Hmax;
    try reflexivity.
  - assert (Hgt : (length (currentItems st) <=? currentIndex st)%nat = false).
    { apply Nat.leb_gt, nth_error_Some. congruence. }
    unfold loop_condition. rewrite Hgt. simpl. rewrite Hgt, Hnth. reflexivity.
  - apply Nat.leb_le in Hle.
    unfold loop_condition. rewrite Hle, Hmore. simpl. rewrite Hle. reflexivity.
  - apply Nat.leb_le in Hle.
    unfold loop_condition, call_fetcher. rewrite Hle, Hmore, Hf. reflexivity.
  - apply Nat.leb_le in Hle.
    unfold loop_condition, call_fetcher, received.
    rewrite Hle, Hmore, Hf, Hc. reflexivity.
  - apply Nat.leb_le in Hle.
    unfold loop_condition, call_fetcher, received.
    rewrite Hle, Hmore, Hf, Hc. reflexivity.
Qed.

(** ... and [next()] always takes one of them: it is total. *)
Lemma cursor_step_total : forall options (st : CursorState T) (env : Env W),
  exists r s', cursor_step fetcher options (st, env) r s'.
Proof.
  intros options st env.
  destruct (max_reached options st) eqn:Hmax.
  { do 2 eexists. apply step_capped. exact Hmax. }
  destruct (nth_error (currentItems st) (currentIndex st)) as [item|] eqn:Hnth.
  { do 2 eexists. eapply step_buffered; eauto. }
  apply nth_error_None in Hnth.
  destruct (hasMore st) eqn:Hmore.
  2:{ do 2 eexists. apply step_exhausted; auto. }
  destruct (fetcher (mkParams (resolvePageSize options) (endCursorVar st))
              (world env)) as [[c|e] w'] eqn:Hf.
  2:{ do 2 eexists. eapply step_fetch_throw; eauto. }
  destruct (edges c) as [|x xs] eqn:Hc.
  - do 2 eexists. eapply step_fetch_empty; eauto.
  - do 2 eexists. eapply step_fetch_page; eauto.
Qed.

Lemma cursor_next_step : forall options st env r st' env',
  cursor_next fetcher options st env = Some (r, st', env') ->
  cursor_step fetcher options (st, env) r (st', env').
Proof.
  intros options st env r st' env' Hnext.
  destruct (cursor_step_total options st env) as (r0 & [st0 env0] & Hstep).
  pose proof (cursor_step_next _ _ _ _ Hstep) as Heq. simpl in Heq.
  rewrite Hnext in Heq. inversion Heq; subst. exact Hstep.
Qed.

Lemma cursor_next_total : forall options (st : CursorState T) (env : Env W),
  exists r st' env', cursor_next fetcher options st env = Some (r, st', env').
Proof.
  intros options st env.
  destruct (cursor_step_total options st env) as (r & [st' env'] & Hstep).
  exists r, st', env'. apply (cursor_step_next _ _ _ _ Hstep).
Qed.

(** *** Invariants of any run of [next()] calls *)

(** A property of states that every path preserves holds all along a
    run. *)
Lemma cursor_reaches_ind_step :
  forall options (P : CursorState T * Env W -> Prop),
  (forall s r s', P s -> cursor_step fetcher options s r s' -> P s') ->
  forall s s', cursor_reaches fetcher options s s' -> P s -> P s'.
Proof.
  intros options P Hpres s s' Hrun.
  induction Hrun as [s | s r st' env' s'' Hnext _ IH]; intro Hs; [exact Hs|].
  apply IH. apply (Hpres s r); [exact Hs|].
  destruct s as [st env]. apply cursor_next_step. exact Hnext.
Qed.

(** Every call made passes the resolved page size. *)
Lemma cursor_calls_first : forall options s s',
  cursor_reaches fetcher options s s' ->
  Forall (fun p => first p = resolvePageSize options) (calls (snd s)) ->
  Forall (fun p => first p = resolvePageSize options) (calls (snd s')).
Proof.
  intros options s s' Hrun.
  eapply (cursor_reaches_ind_step options
            (fun s => Forall (fun p => first p = resolvePageSize options)
                        (calls (snd s)))); [|exact Hrun].
  intros s0 r s0' H0 Hstep.
  inversion Hstep; subst; simpl in *; auto;
    apply Forall_app; split; auto.
Qed.

(** Once [hasMore] is false it stays false and the fetcher is left
    alone. *)
Lemma cursor_no_more_fetch : forall options s s',
  cursor_reaches fetcher options s s' ->
  hasMore (fst s) = false ->
  hasMore (fst s') = false /\ snd s' = snd s.
Proof.
  intros options s s' Hrun Hs.
  eapply (cursor_reaches_ind_step options
            (fun x => hasMore (fst x) = false /\ snd x = snd s));
    [|exact Hrun|auto].
  intros s0 r s0' [Hm He] Hstep.
  inversion Hstep; subst; simpl in *; auto; congruence.
Qed.

(** With a non-negative cap, no more than [maxItems] items are handed
    out. *)
Lemma cursor_cap_invariant : forall options m s s',
  maxItems options = Some m ->
  cursor_reaches fetcher options s s' ->
  totalReturned (fst s) <= m ->
  totalReturned (fst s') <= m.
Proof.
  intros options m s s' Hm Hrun.
  eapply (cursor_reaches_ind_step options
            (fun x => totalReturned (fst x) <= m)); [|exact Hrun].
  intros s0 r s0' H0 Hstep.
  inversion Hstep; subst; simpl in *; auto;
    match goal with
    | Hmax : max_reached _ _ = false |- _ =>
        unfold max_reached in Hmax; rewrite Hm in Hmax;
        apply Z.leb_gt in Hmax
    end; simpl in *; lia.
Qed.

(** *** Driving the item iterator with [toArray()] *)

Lemma toArray_yield : forall options fuel acc st env v st' env',
  cursor_step fetcher options (st, env) (Yield v) (st', env') ->
  cursor_toArray_from fetcher options (S fuel) acc st env
  = cursor_toArray_from fetcher options fuel (acc ++ [v]) st' env'.
Proof.
  intros options fuel acc st env v st' env' Hstep.
  apply cursor_step_next in Hstep. simpl in *. rewrite Hstep. reflexivity.
Qed.

Lemma toArray_done : forall options fuel acc st env st' env',
  cursor_step fetcher options (st, env) Done (st', env') ->
  cursor_toArray_from fetcher options (S fuel) acc st env
  = Some (inl acc, st', env').
Proof.
  intros options fuel acc st env st' env' Hstep.
  apply cursor_step_next in Hstep. simpl in *. rewrite Hstep. reflexivity.
Qed.

Lemma skipn_cons_inv : forall (A : Type) (l : list A) n x r,
  skipn n l = x :: r -> nth_error l n = Some x /\ skipn (S n) l = r.
Proof.
  intros A l. induction l as [|a l IH]; intros n x r H.
  - destruct n; discriminate.
  - destruct n as [|n].
    + simpl in H. inversion H; subst. split; reflexivity.
    + simpl in H. apply IH in H. exact H.
Qed.

(** Without a cap, the items left in the buffer are collected one
    [next()] call each, and no fetch happens meanwhile. *)
Lemma toArray_drain : forall options rest fuel acc st env,
  maxItems options = None ->
  skipn (currentIndex st) (currentItems st) = rest ->
  cursor_toArray_from fetcher options (length rest + fuel) acc st env
  = cursor_toArray_from fetcher options fuel (acc ++ rest)
      (taken (length rest) st) env.
Proof.
  intros options rest.
  induction rest as [|x rest IH]; intros fuel acc st env Hcap Hskip.
  - simpl. rewrite app_nil_r. unfold taken. destruct st; simpl.
    rewrite Nat.add_0_r, Z.add_0_r. reflexivity.
  - apply skipn_cons_inv in Hskip. destruct Hskip as [Hnth Hskip].
    simpl length. simpl Nat.add.
    rewrite (toArray_yield options _ acc st env x (advance st) env).
    2:{ apply step_buffered; [|exact Hnth].
        unfold max_reached. rewrite Hcap. reflexivity. }
    rewrite (IH fuel (acc ++ [x]) (advance st) env Hcap Hskip).
    rewrite <- app_assoc. simpl.
    f_equal. unfold taken, advance. simpl. f_equal; lia.
Qed.

(** Without a cap, an exhausted buffer and a non-empty next page: one
    fetch, then every item of the page in order. *)
Lemma toArray_page : forall options fuel acc st env c w',
  maxItems options = None ->
  (length (currentItems st) <= currentIndex st)%nat ->
  hasMore st = true ->
  fetcher (mkParams (resolvePageSize options) (endCursorVar st)) (world env)
  = (inl c, w') ->
  edges c <> [] ->
  cursor_toArray_from fetcher options (length (edges c) + fuel) acc st env
  = cursor_toArray_from fetcher options fuel (acc ++ map node (edges c))
      (taken (length (edges c)) (received st c))
      (mkEnv w' (calls env
                 ++ [mkParams (resolvePageSize options) (endCursorVar st)])).
Proof.
  intros options fuel acc st env c w' Hcap Hle Hmore Hf Hne.
  destruct (edges c) as [|x xs] eqn:Hc; [congruence|]. clear Hne.
  assert (Hmax : max_reached options st = false)
    by (unfold max_reached; rewrite Hcap; reflexivity).
  simpl length. simpl Nat.add.
  rewrite (toArray_yield options _ acc st env (node x) _ _
             (step_fetch_page T E W fetcher options st env c w' x xs
                Hmax Hle Hmore Hf Hc)).
  rewrite <- (length_map node xs).
  rewrite (toArray_drain options (map node xs)).
  - rewrite length_map, <- app_assoc. simpl.
    f_equal. unfold taken, advance, received. simpl. rewrite Hc.
    f_equal; lia.
  - exact Hcap.
  - simpl. rewrite Hc. reflexivity.
Qed.

(** C1. Item mode without a cap.  A single non-empty page with
    [hasNextPage = false] is collected as exactly its items, with one
    fetcher call ([after] undefined).  A non-empty first page with
    [hasNextPage = true] followed by a non-empty page with
    [hasNextPage = false] is collected as the items of the first then
    those of the second, with exactly two fetcher calls, the first with
    [after] undefined and the second with [after] the first page's
    [endCursor].  Any fuel above the number of items is enough. *)
Theorem cursor_pages_in_order : forall options w0 c1 w1,
  maxItems options = None ->
  fetcher (mkParams (resolvePageSize options) None) w0 = (inl c1, w1) ->
  edges c1 <> [] ->
  (hasNextPage (pageInfo c1) = false ->
   forall fuel, (length (edges c1) < fuel)%nat ->
   exists st',
     cursor_toArray fetcher options fuel createCursorPaginatedIterator
       (mkEnv w0 [])
     = Some (inl (map node (edges c1)), st',
             mkEnv w1 [mkParams (resolvePageSize options) None]))
  /\
  (hasNextPage (pageInfo c1) = true ->
   forall c2 w2,
   fetcher (mkParams (resolvePageSize options) (endCursor (pageInfo c1))) w1
   = (inl c2, w2) ->
   edges c2 <> [] ->
   hasNextPage (pageInfo c2) = false ->
   forall fuel, (length (edges c1) + length (edges c2) < fuel)%nat ->
   exists st',
     cursor_toArray fetcher options fuel createCursorPaginatedIterator
       (mkEnv w0 [])
     = Some (inl (map node (edges c1) ++ map node (edges c2)), st',
             mkEnv w2 [mkParams (resolvePageSize options) None;
                       mkParams (resolvePageSize options)
                         (endCursor (pageInfo c1))])).
Proof.
  intros options w0 c1 w1 Hcap Hf1 Hne1.
  assert (Hfirst : forall fuel,
    cursor_toArray fetcher options (length (edges c1) + fuel)
      createCursorPaginatedIterator (mkEnv w0 [])
    = cursor_toArray_from fetcher options fuel (map node (edges c1))
        (taken (length (edges c1)) (received createCursorPaginatedIterator c1))
        (mkEnv w1 [mkParams (resolvePageSize options) None])).
  { intro fuel. unfold cursor_toArray.
    rewrite (toArray_page options fuel [] createCursorPaginatedIterator
               (mkEnv w0 []) c1 w1); auto. }
  assert (Hmax : forall st : CursorState T, max_reached options st = false)
    by (intro st; unfold max_reached; rewrite Hcap; reflexivity).
  split.
  - intros Hlast fuel Hfuel.
    replace fuel with (length (edges c1) + S (fuel - S (length (edges c1))))%nat
      by lia.
    rewrite Hfirst. eexists. apply toArray_done.
    apply step_exhausted; simpl; auto.
    rewrite length_map. lia.
  - intros Hnext c2 w2 Hf2 Hne2 Hlast fuel Hfuel.
    replace fuel with
      (length (edges c1)
       + (length (edges c2)
          + S (fuel - S (length (edges c1) + length (edges c2)))))%nat by lia.
    rewrite Hfirst.
    rewrite (toArray_page options _ _ _ _ c2 w2); simpl; auto.
    + eexists. apply toArray_done.
      apply step_exhausted; simpl; auto.
      rewrite length_map. lia.
    + rewrite length_map. lia.
Qed.

(** *** Page mode *)

Lemma page_reaches_ind_step :
  forall options (P : PageState * Env W -> Prop),
  (forall st env r st' env',
     P (st, env) -> page_next fetcher options st env = (r, st', env') ->
     P (st', env')) ->
  forall s s', page_reaches fetcher options s s' -> P s -> P s'.
Proof.
  intros options P Hpres s s' Hrun.
  induction Hrun as [s | s r st' env' s'' Hnext _ IH]; intro Hs; [exact Hs|].
  apply IH. destruct s as [st env]. apply (Hpres st env r); assumption.
Qed.

Lemma page_calls_first : forall options s s',
  page_reaches fetcher options s s' ->
  Forall (fun p => first p = resolvePageSize options) (calls (snd s)) ->
  Forall (fun p => first p = resolvePageSize options) (calls (snd s')).
Proof.
  intros options s s' Hrun.
  eapply (page_reaches_ind_step options
            (fun s => Forall (fun p => first p = resolvePageSize options)
                        (calls (snd s)))); [|exact Hrun].
  intros st env r st' env' H0. unfold page_next, call_fetcher. simpl in *.
  destruct (pgHasMore st); simpl.
  2:{ intro Heq; inversion Heq; subst; exact H0. }
  destruct (fetcher _ (world env)) as [[c|e] w'].
  - destruct (length (edges c) =? 0)%nat; intro Heq; inversion Heq; subst;
      simpl; apply Forall_app; split; auto.
  - intro Heq; inversion Heq; subst; simpl. apply Forall_app; split; auto.
Qed.

Lemma page_no_more_fetch : forall options s s',
  page_reaches fetcher options s s' ->
  pgHasMore (fst s) = false ->
  s' = s.
Proof.
  intros options s s' Hrun Hs.
  eapply (page_reaches_ind_step options
            (fun x => x = s)); [|exact Hrun|reflexivity].
  intros st env r st' env' H0 Hnext. subst s. simpl in Hs.
  unfold page_next in Hnext. rewrite Hs in Hnext. simpl in Hnext.
  inversion Hnext; subst. reflexivity.
Qed.

(** C4, as the code has it.  A fetch that returns an empty page makes
    that [next()] call return done, in both modes, whatever
    [hasNextPage] says.  If the empty page reported
    [hasNextPage = false], every later [next()] call returns done and
    leaves the iterator and the fetcher untouched; if it reported
    [hasNextPage = true] the iterator is not latched and the following
    [next()] call invokes the fetcher again, with [after] the empty
    page's [endCursor].  In both modes, once [hasMore] is false no later
    [next()] call invokes the fetcher. *)
Theorem empty_page_ends_sequence :
  (forall options st env c w',
     max_reached options st = false ->
     (length (currentItems st) <= currentIndex st)%nat ->
     hasMore st = true ->
     fetcher (mkParams (resolvePageSize options) (endCursorVar st)) (world env)
     = (inl c, w') ->
     edges c = [] ->
     let st' := received st c in
     let env' :=
       mkEnv w' (calls env
                 ++ [mkParams (resolvePageSize options) (endCursorVar st)]) in
     cursor_next fetcher options st env = Some (Done, st', env')
     /\ (hasNextPage (pageInfo c) = false ->
         forall s, cursor_reaches fetcher options (st', env') s ->
         s = (st', env')
         /\ cursor_next fetcher options st' env' = Some (Done, st', env'))
     /\ (hasNextPage (pageInfo c) = true ->
         exists r st'' w'',
           cursor_next fetcher options st' env'
           = Some (r, st'',
                   mkEnv w'' (calls env'
                              ++ [mkParams (resolvePageSize options)
                                    (endCursor (pageInfo c))]))))
  /\ (forall options s s',
        hasMore (fst s) = false ->
        cursor_reaches fetcher options s s' -> snd s' = snd s)
  /\ (forall options st env c w',
        pgHasMore st = true ->
        fetcher (mkParams (resolvePageSize options) (pgEndCursor st)) (world env)
        = (inl c, w') ->
        edges c = [] ->
        let st' :=
          mkPageState (hasNextPage (pageInfo c)) (endCursor (pageInfo c)) in
        let env' :=
          mkEnv w' (calls env
                    ++ [mkParams (resolvePageSize options) (pgEndCursor st)]) in
        page_next fetcher options st env = (Done, st', env')
        /\ (hasNextPage (pageInfo c) = false ->
            forall s, page_reaches fetcher options (st', env') s ->
            s = (st', env')
            /\ page_next fetcher options st' env' = (Done, st', env'))
        /\ (hasNextPage (pageInfo c) = true ->
            exists r st'' w'',
              page_next fetcher options st' env'
              = (r, st'',
                 mkEnv w'' (calls env'
                            ++ [mkParams (resolvePageSize options)
                                  (endCursor (pageInfo c))]))))
  /\ (forall options s s',
        pgHasMore (fst s) = false ->
        page_reaches fetcher options s s' -> s' = s).
Proof.
  split; [|split; [|split]].
  - intros options st env c w' Hmax Hle Hmore Hf Hc st' env'.
    pose proof (step_fetch_empty T E W fetcher options st env c w'
                  Hmax Hle Hmore Hf Hc) as Hstep.
    apply cursor_step_next in Hstep. simpl in Hstep.
    assert (Hmax' : max_reached options st' = false) by exact Hmax.
    assert (Hitems : currentItems st' = [])
      by (subst st'; unfold received; simpl; rewrite Hc; reflexivity).
    split; [exact Hstep|split].
    + intro Hlast.
      assert (Hdone : cursor_step fetcher options (st', env') Done (st', env')).
      { apply step_exhausted; auto. rewrite Hitems. simpl. lia. }
      intros s Hrun. split.
      * eapply (cursor_reaches_ind_step options (fun x => x = (st', env')));
          [|exact Hrun|reflexivity].
        intros s0 r s0' H0 Hs. subst s0.
        inversion Hs; subst; try reflexivity;
          try (simpl in *; congruence).
        rewrite Hitems in *. simpl in *. discriminate.
      * apply (cursor_step_next _ _ _ _ Hdone).
    + intro Hnext.
      assert (Hle' : (length (currentItems st') <= currentIndex st')%nat)
        by (rewrite Hitems; simpl; lia).
      destruct (fetcher (mkParams (resolvePageSize options) (endCursorVar st'))
                  (world env')) as [[c2|e] w''] eqn:Hf2.
      * destruct (edges c2) as [|x xs] eqn:Hc2.
        -- pose proof (step_fetch_empty T E W fetcher options st' env' c2 w''
                         Hmax' Hle' Hnext Hf2 Hc2) as H2.
           apply cursor_step_next in H2. simpl in H2. eauto.
        -- pose proof (step_fetch_page T E W fetcher options st' env' c2 w''
                         x xs Hmax' Hle' Hnext Hf2 Hc2) as H2.
           apply cursor_step_next in H2. simpl in H2. eauto.
      * pose proof (step_fetch_throw T E W fetcher options st' env' e w''
                      Hmax' Hle' Hnext Hf2) as H2.
        apply cursor_step_next in H2. simpl in H2. eauto.
  - intros options s s' Hs Hrun.
    apply (cursor_no_more_fetch options s s' Hrun Hs).
  - intros options st env c w' Hmore Hf Hc st' env'.
    assert (Hstep : page_next fetcher options st env = (Done, st', env')).
    { unfold page_next, call_fetcher. rewrite Hmore, Hf, Hc. reflexivity. }
    split; [exact Hstep|split].
    + intros Hlast s Hrun.
      assert (Hdone : page_next fetcher options st' env' = (Done, st', env')).
      { unfold page_next. subst st'. simpl. rewrite Hlast. reflexivity. }
      split; [|exact Hdone].
      apply (page_no_more_fetch options _ _ Hrun). exact Hlast.
    + intro Hnext. unfold page_next, call_fetcher. subst st'. simpl.
      rewrite Hnext. simpl.
      destruct (fetcher _ w') as [[c2|e] w'']; [|eauto].
      destruct (length (edges c2) =? 0)%nat; eauto.
  - intros options s s' Hs Hrun.
    apply (page_no_more_fetch options s s' Hrun Hs).
Qed.

(** C5, as the code has it.  With [maxItems] set to [m]: when [m] is not
    negative, [totalReturned <= m] holds at every point of any run of
    [next()] calls on a fresh iterator; whatever [m] is, once
    [totalReturned >= m] a [next()] call returns done at once, the
    iterator and the fetcher untouched; and with [m = 2] and a first
    page of three items, [toArray()] returns the first two items after
    exactly one fetcher call. *)
Theorem cursor_cap_respected : forall options m,
  maxItems options = Some m ->
  (0 <= m ->
   forall w0 s,
   cursor_reaches fetcher options (createCursorPaginatedIterator, mkEnv w0 []) s ->
   totalReturned (fst s) <= m)
  /\ (forall st env,
        m <= totalReturned st ->
        cursor_next fetcher options st env = Some (Done, st, env))
  /\ (m = 2 ->
      forall w0 c w1 e1 e2 e3,
      fetcher (mkParams (resolvePageSize options) None) w0 = (inl c, w1) ->
      edges c = [e1; e2; e3] ->
      forall fuel, (2 < fuel)%nat ->
      exists st',
        cursor_toArray fetcher options fuel createCursorPaginatedIterator
          (mkEnv w0 [])
        = Some (inl [node e1; node e2], st',
                mkEnv w1 [mkParams (resolvePageSize options) None])).
Proof.
  intros options m Hm. split; [|split].
  - intros Hpos w0 s Hrun.
    apply (cursor_cap_invariant options m _ s Hm Hrun). simpl. exact Hpos.
  - intros st env Hge.
    apply (cursor_step_next options (st, env) Done (st, env)).
    apply step_capped. unfold max_reached. rewrite Hm.
    apply Z.leb_le. exact Hge.
  - intros -> w0 c w1 e1 e2 e3 Hf Hc fuel Hfuel.
    destruct fuel as [|[|[|fuel]]]; try lia.
    unfold cursor_toArray.
    rewrite (toArray_yield options _ [] createCursorPaginatedIterator
               (mkEnv w0 []) (node e1)
               (advance (received createCursorPaginatedIterator c))
               (mkEnv w1 ([] ++ [mkParams (resolvePageSize options) None]))).
    2:{ apply (step_fetch_page T E W fetcher options
                 createCursorPaginatedIterator (mkEnv w0 []) c w1 e1 [e2; e3]);
        auto. unfold max_reached. rewrite Hm. reflexivity. }
    rewrite (toArray_yield options _ _ _ _ (node e2)
               (advance (advance (received createCursorPaginatedIterator c)))
               (mkEnv w1 ([] ++ [mkParams (resolvePageSize options) None]))).
    2:{ apply step_buffered.
        - unfold max_reached. rewrite Hm. reflexivity.
        - simpl. rewrite Hc. reflexivity. }
    eexists. apply toArray_done. apply step_capped.
    unfold max_reached. rewrite Hm. reflexivity.
Qed.

(** C9, as the code has it.  In both modes every fetcher call passes
    [first = min(p, 100)] where [p] is [pageSize], or 50 when [pageSize]
    is not supplied or is 0; a [pageSize] above 100 is capped, so
    [pageSize = 500] gives [first = 100] on every call. *)
Theorem fetch_first_is_clamped : forall options w0,
  let p := match pageSize options with
           | Some n => if n =? 0 then 50 else n
           | None => 50
           end in
  (forall s,
     cursor_reaches fetcher options (createCursorPaginatedIterator, mkEnv w0 []) s ->
     Forall (fun q => first q = Z.min p 100) (calls (snd s)))
  /\ (forall s,
        page_reaches fetcher options (createPageIterator, mkEnv w0 []) s ->
        Forall (fun q => first q = Z.min p 100) (calls (snd s)))
  /\ (100 < p -> Z.min p 100 = 100)
  /\ (pageSize options = Some 500 -> Z.min p 100 = 100).
Proof.
  intros options w0 p.
  assert (Hp : Z.min p 100 = resolvePageSize options) by reflexivity.
  rewrite Hp. repeat split.
  - intros s Hrun. apply (cursor_calls_first options _ s Hrun). constructor.
  - intros s Hrun. apply (page_calls_first options _ s Hrun). constructor.
  - intro Hbig. rewrite <- Hp. lia.
  - intro H500. unfold resolvePageSize. rewrite H500. reflexivity.
Qed.

(** C10.  [pageSize = 0] behaves exactly as an omitted [pageSize]: the
    two iterators make the same [next()] steps, and every fetcher call
    passes [first = 50].  A negative [pageSize] reaches the fetcher
    unchanged on every call: only the upper clamp applies. *)
Theorem page_size_zero_and_negative :
  (forall cap st env,
     cursor_next fetcher (mkOptions (Some 0) cap) st env
     = cursor_next fetcher (mkOptions None cap) st env)
  /\ (forall cap st env,
        page_next fetcher (mkOptions (Some 0) cap) st env
        = page_next fetcher (mkOptions None cap) st env)
  /\ (forall cap w0,
        (forall s,
           cursor_reaches fetcher (mkOptions (Some 0) cap)
             (createCursorPaginatedIterator, mkEnv w0 []) s ->
           Forall (fun q => first q = 50) (calls (snd s)))
        /\ (forall s,
              page_reaches fetcher (mkOptions (Some 0) cap)
                (createPageIterator, mkEnv w0 []) s ->
              Forall (fun q => first q = 50) (calls (snd s))))
  /\ (forall n cap w0,
        n < 0 ->
        (forall s,
           cursor_reaches fetcher (mkOptions (Some n) cap)
             (createCursorPaginatedIterator, mkEnv w0 []) s ->
           Forall (fun q => first q = n) (calls (snd s)))
        /\ (forall s,
              page_reaches fetcher (mkOptions (Some n) cap)
                (createPageIterator, mkEnv w0 []) s ->
              Forall (fun q => first q = n) (calls (snd s)))).
Proof.
  split; [|split; [|split]].
  - reflexivity.
  - reflexivity.
  - intros cap w0. split; intros s Hrun.
    + apply (cursor_calls_first (mkOptions (Some 0) cap) _ s Hrun). constructor.
    + apply (page_calls_first (mkOptions (Some 0) cap) _ s Hrun). constructor.
  - intros n cap w0 Hneg.
    assert (Hn : resolvePageSize (mkOptions (Some n) cap) = n).
    { unfold resolvePageSize, js_or, DEFAULT_PAGE_SIZE, MAX_PAGE_SIZE. simpl.
      destruct (Z.eqb_spec n 0); lia. }
    split; intros s Hrun; rewrite <- Hn.
    + apply (cursor_calls_first _ _ s Hrun). constructor.
    + apply (page_calls_first _ _ s Hrun). constructor.
Qed.

End IteratorFacts.

(** *** Concrete runs *)

Local Open Scope string_scope.

(** Two pages, [a b] then [c], replayed by a scripted fetcher. *)
Lemma cursor_pages_in_order_witness :
  exists st,
    cursor_toArray
      (scripted [page_of ["a"; "b"] true (Some "b"); page_of ["c"] false None])
      (mkOptions None None) 4 createCursorPaginatedIterator (mkEnv 0%nat [])
    = Some (inl ["a"; "b"; "c"], st,
            mkEnv 2%nat [mkParams 50 None; mkParams 50 (Some "b")]).
Proof.
  destruct (cursor_pages_in_order string string nat
              (scripted [page_of ["a"; "b"] true (Some "b");
                         page_of ["c"] false None])
              (mkOptions None None) 0%nat
              (page_of ["a"; "b"] true (Some "b")) 1%nat
              eq_refl eq_refl) as [_ Htwo].
  - discriminate.
  - apply (Htwo eq_refl (page_of ["c"] false None) 2%nat eq_refl).
    + discriminate.
    + reflexivity.
    + simpl. lia.
Defined.

(** An empty last page: done, and done again on every later call. *)
Lemma empty_page_ends_sequence_witness :
  let f := scripted [page_of [] false None; page_of ["a"] false None] in
  let options := mkOptions None None in
  let st' := received createCursorPaginatedIterator (page_of [] false None) in
  let env' := mkEnv 1%nat [mkParams 50 None] in
  cursor_next f options createCursorPaginatedIterator (mkEnv 0%nat [])
  = Some (Done, st', env')
  /\ (forall s, cursor_reaches f options (st', env') s ->
      s = (st', env')
      /\ cursor_next f options st' env' = Some (Done, st', env')).
Proof.
  intros f options st' env'.
  destruct (empty_page_ends_sequence string string nat f) as [Hitem _].
  destruct (Hitem options createCursorPaginatedIterator (mkEnv 0%nat [])
              (page_of [] false None) 1%nat
              eq_refl (le_n 0) eq_refl eq_refl eq_refl) as (Hdone & Hlater & _).
  split; [exact Hdone | exact (Hlater eq_refl)].
Defined.

(** An empty page that claims [hasNextPage = true]: the call returns
    done, but the next call on the same iterator does not: it fetches
    again and, in item mode, yields an item; in page mode, yields a
    page. *)
Lemma empty_page_counterexample :
  let f := scripted [page_of [] true (Some "k"); page_of ["a"] false None] in
  let options := mkOptions None None in
  (exists st1 env1 st2 env2,
     cursor_next f options createCursorPaginatedIterator (mkEnv 0%nat [])
     = Some (Done, st1, env1)
     /\ calls env1 = [mkParams 50 None]
     /\ cursor_next f options st1 env1 = Some (Yield "a", st2, env2)
     /\ calls env2 = [mkParams 50 None; mkParams 50 (Some "k")]
     /\ cursor_next f options st1 env1 <> Some (Done, st1, env1))
  /\ (exists st1 env1 st2 env2,
        page_next f options createPageIterator (mkEnv 0%nat [])
        = (Done, st1, env1)
        /\ calls env1 = [mkParams 50 None]
        /\ page_next f options st1 env1
           = (Yield (page_of ["a"] false None), st2, env2)
        /\ calls env2 = [mkParams 50 None; mkParams 50 (Some "k")]
        /\ page_next f options st1 env1 <> (Done, st1, env1)).
Proof.
  split; do 4 eexists; repeat split; try reflexivity; discriminate.
Qed.

(** A cap of 2 on a page of three items. *)
Lemma cursor_cap_respected_witness :
  let f := scripted [page_of ["a"; "b"; "c"] false None] in
  let options := mkOptions None (Some 2) in
  (forall s,
     cursor_reaches f options (createCursorPaginatedIterator, mkEnv 0%nat []) s ->
     totalReturned (fst s) <= 2)
  /\ (exists st,
        cursor_toArray f options 3 createCursorPaginatedIterator (mkEnv 0%nat [])
        = Some (inl ["a"; "b"], st, mkEnv 1%nat [mkParams 50 None])).
Proof.
  intros f options.
  destruct (cursor_cap_respected string string nat f options 2 eq_refl)
    as (Hinv & _ & Hrun).
  split.
  - intros s Hs. apply (Hinv ltac:(lia) 0%nat s Hs).
  - apply (Hrun eq_refl 0%nat (page_of ["a"; "b"; "c"] false None) 1%nat
             (mkEdge "a" "a") (mkEdge "b" "b") (mkEdge "c" "c")
             eq_refl eq_refl 3%nat).
    lia.
Defined.

(** A negative cap: nothing is fetched or yielded, and the count 0 is
    above the cap from the start. *)
Lemma cursor_cap_counterexample :
  let f := scripted [page_of ["a"; "b"; "c"] false None] in
  let options := mkOptions None (Some (-1)) in
  exists st env,
    cursor_toArray f options 1 createCursorPaginatedIterator (mkEnv 0%nat [])
    = Some (inl [], st, env)
    /\ cursor_reaches f options (createCursorPaginatedIterator, mkEnv 0%nat [])
         (st, env)
    /\ calls env = []
    /\ ~ totalReturned st <= -1.
Proof.
  do 2 eexists. split; [reflexivity|]. split; [|split].
  - apply cursor_reaches_here.
  - reflexivity.
  - simpl. lia.
Qed.

(** [pageSize = 500]: the first fetch asks for 100. *)
Lemma fetch_first_is_clamped_witness :
  let f := scripted [page_of ["a"] false None] in
  let options := mkOptions (Some 500) None in
  exists r st env,
    cursor_next f options createCursorPaginatedIterator (mkEnv 0%nat [])
    = Some (r, st, env)
    /\ calls env = [mkParams 100 None]
    /\ Forall (fun q => first q = 100) (calls env).
Proof.
  intros f options. do 3 eexists. split; [reflexivity|]. split; [reflexivity|].
  destruct (fetch_first_is_clamped string string nat f options 0%nat)
    as (Hitem & _ & _ & H500).
  rewrite <- (H500 eq_refl).
  refine (Hitem (_, _) _).
  eapply cursor_reaches_next; [reflexivity | apply cursor_reaches_here].
Defined.

(** [pageSize = 0]: the sentence gives [min(0, 100) = 0], the fetch asks
    for 50. *)
Lemma page_size_zero_counterexample :
  let f := scripted [page_of ["a"] false None] in
  let options := mkOptions (Some 0) None in
  exists r st env,
    cursor_next f options createCursorPaginatedIterator (mkEnv 0%nat [])
    = Some (r, st, env)
    /\ calls env = [mkParams 50 None]
    /\ stated_first options = 0
    /\ ~ Forall (fun q => first q = stated_first options) (calls env).
Proof.
  do 3 eexists. split; [reflexivity|]. split; [reflexivity|].
  split; [reflexivity|].
  intro H. inversion H as [|q l Hq Hl]; subst. discriminate Hq.
Qed.

(** [pageSize = -5]: the fetch asks for -5. *)
Lemma page_size_zero_and_negative_witness :
  let f := scripted [page_of ["a"] false None] in
  let options := mkOptions (Some (-5)) None in
  exists r st env,
    cursor_next f options createCursorPaginatedIterator (mkEnv 0%nat [])
    = Some (r, st, env)
    /\ calls env = [mkParams (-5) None]
    /\ Forall (fun q => first q = -5) (calls env).
Proof.
  intros f options. do 3 eexists. split; [reflexivity|]. split; [reflexivity|].
  destruct (page_size_zero_and_negative string string nat f)
    as (_ & _ & _ & Hneg).
  destruct (Hneg (-5) None 0%nat ltac:(lia)) as [Hitem _].
  refine (Hitem (_, _) _).
  eapply cursor_reaches_next; [reflexivity | apply cursor_reaches_here].
Defined.

End PaginationProofs.

(* ================================================================== *)
(** * Properties of the rate limiter *)
(* ================================================================== *)

Module RateLimitProofs.
Import RateLimit.

(** *** Pruning *)

Lemma shift_while_idem : forall cutoff rs,
  shift_while cutoff (shift_while cutoff rs) = shift_while cutoff rs.
Proof.
  intros cutoff rs. induction rs as [|r rs IH]; simpl; [reflexivity|].
  destruct (timestamp r <? cutoff) eqn:Hr; [exact IH|].
  simpl. rewrite Hr. reflexivity.
Qed.

Lemma shift_while_keep : forall cutoff rs,
  Forall (fun r => cutoff <= timestamp r) rs -> shift_while cutoff rs = rs.
Proof.
  intros cutoff rs Hall. destruct Hall as [|r rs Hr _]; simpl; [reflexivity|].
  apply Z.ltb_ge in Hr. rewrite Hr. reflexivity.
Qed.

Lemma shift_while_drop : forall cutoff rs,
  Forall (fun r => timestamp r < cutoff) rs -> shift_while cutoff rs = [].
Proof.
  intros cutoff rs Hall. induction Hall as [|r rs Hr _ IH]; simpl; [reflexivity|].
  apply Z.ltb_lt in Hr. rewrite Hr. exact IH.
Qed.

(** *** What the getters compute, in one step *)

(** Runs the method combinators, leaving the arithmetic alone. *)
Ltac run_methods :=
  cbv beta iota zeta delta
    [getDelayMs isThrottling isLimited scaledDelay remaining currentCount
     pruneOldRequests getConfig getRequests dateNow bind ret
     config requests negb].

Section Getters.

Variable cfg : RateLimitConfig.
Variable now : Z.
Variable rs : list RequestTimestamp.

Let pruned := shift_while (now - windowMs cfg) rs.
Let count := Z.of_nat (length pruned).

Lemma currentCount_eq :
  currentCount now (mkLimiter cfg rs) = (count, mkLimiter cfg pruned).
Proof. reflexivity. Qed.

Lemma remaining_eq :
  remaining now (mkLimiter cfg rs)
  = (Z.max 0 (maxRequests cfg - count), mkLimiter cfg pruned).
Proof. reflexivity. Qed.

Hypothesis Henabled : enabled cfg = true.

Lemma isThrottling_eq :
  isThrottling now (mkLimiter cfg rs)
  = (Qle_bool (throttleThreshold cfg) (usedRatioOf count cfg),
     mkLimiter cfg pruned).
Proof.
  run_methods. rewrite Henabled. reflexivity.
Qed.

Lemma isLimited_eq :
  isLimited now (mkLimiter cfg rs)
  = (maxRequests cfg <=? count, mkLimiter cfg pruned).
Proof.
  run_methods. rewrite Henabled. reflexivity.
Qed.

Lemma getDelayMs_eq :
  getDelayMs now (mkLimiter cfg rs)
  = (if negb (Qle_bool (throttleThreshold cfg) (usedRatioOf count cfg))
     then 0
     else
       match maxRequests cfg <=? count, pruned with
       | true, oldest :: _ => Z.max 0 (timestamp oldest + windowMs cfg - now)
       | _, _ =>
           Qfloor ((usedRatioOf count cfg - throttleThreshold cfg)
                   / (1 - throttleThreshold cfg)
                   * inject_Z (retryAfterMs cfg))
       end,
     mkLimiter cfg pruned).
Proof.
  assert (Hidem : shift_while (now - windowMs cfg) pruned = pruned)
    by apply shift_while_idem.
  repeat (run_methods; rewrite ?Henabled).
  fold pruned. rewrite !Hidem. fold count.
  destruct (Qle_bool (throttleThreshold cfg) (usedRatioOf count cfg));
    [|reflexivity].
  repeat (run_methods; rewrite ?Henabled).
  rewrite !Hidem. fold count.
  destruct (maxRequests cfg <=? count).
  - destruct pruned as [|oldest rest] eqn:Hp; [|reflexivity].
    run_methods. reflexivity.
  - run_methods. rewrite !Hidem. reflexivity.
Qed.

End Getters.

(** *** The used ratio *)

Lemma ratio_mono : forall m n1 n2,
  0 < m -> n1 <= n2 -> (inject_Z n1 / inject_Z m <= inject_Z n2 / inject_Z m)%Q.
Proof.
  intros m n1 n2 Hm Hn. unfold Qdiv.
  apply Qmult_le_compat_r.
  - rewrite <- Zle_Qle. exact Hn.
  - apply Qlt_le_weak, Qinv_lt_0_compat.
    change 0%Q with (inject_Z 0). rewrite <- Zlt_Qlt. exact Hm.
Qed.

Lemma ratio_ge_one : forall m n,
  0 < m -> m <= n -> (1 <= inject_Z n / inject_Z m)%Q.
Proof.
  intros m n Hm Hn. apply Qle_shift_div_l.
  - change 0%Q with (inject_Z 0). rewrite <- Zlt_Qlt. exact Hm.
  - rewrite Qmult_1_l, <- Zle_Qle. exact Hn.
Qed.

Lemma ratio_lt_one : forall m n,
  0 < m -> n < m -> (inject_Z n / inject_Z m < 1)%Q.
Proof.
  intros m n Hm Hn. apply Qlt_shift_div_r.
  - change 0%Q with (inject_Z 0). rewrite <- Zlt_Qlt. exact Hm.
  - rewrite Qmult_1_l, <- Zlt_Qlt. exact Hn.
Qed.

(** At the limit with a non-empty sequence: the wait for the oldest
    request to leave the window. *)
Lemma getDelayMs_at_limit : forall cfg now rs oldest rest,
  enabled cfg = true ->
  0 < maxRequests cfg ->
  (throttleThreshold cfg <= 1)%Q ->
  maxRequests cfg <= fst (currentCount now (mkLimiter cfg rs)) ->
  requests (snd (pruneOldRequests now (mkLimiter cfg rs))) = oldest :: rest ->
  fst (getDelayMs now (mkLimiter cfg rs))
  = Z.max 0 (timestamp oldest + windowMs cfg - now).
Proof.
  intros cfg now rs oldest rest Hen Hmax Hthr.
  rewrite (getDelayMs_eq cfg now rs Hen), currentCount_eq.
  cbv zeta. simpl fst. simpl snd. simpl requests.
  set (pruned := shift_while (now - windowMs cfg) rs).
  set (count := Z.of_nat (length pruned)).
  intros Hlim Hp.
  assert (Hthrottling :
    Qle_bool (throttleThreshold cfg) (usedRatioOf count cfg) = true).
  { apply Qle_bool_iff. apply Qle_trans with (1 := Hthr).
    apply ratio_ge_one; assumption. }
  apply Z.leb_le in Hlim.
  rewrite Hthrottling, Hlim, Hp. reflexivity.
Qed.



(** *** The scaled delay *)

Section Scaled.

Variable cfg : RateLimitConfig.
Hypothesis Hmax : 0 < maxRequests cfg.
Hypothesis Hretry : 0 <= retryAfterMs cfg.

Lemma retry_nonneg : (0 <= inject_Z (retryAfterMs cfg))%Q.
Proof. change 0%Q with (inject_Z 0). rewrite <- Zle_Qle. exact Hretry. Qed.

(** Throttling below the limit leaves room under 1. *)
Lemma room_below_limit : forall n,
  n < maxRequests cfg ->
  (throttleThreshold cfg <= usedRatioOf n cfg)%Q ->
  (0 < 1 - throttleThreshold cfg)%Q.
Proof.
  intros n Hn Hthr.
  pose proof (ratio_lt_one (maxRequests cfg) n Hmax Hn) as Hlt.
  unfold usedRatioOf in Hthr. lra.
Qed.

Lemma scaled_nonneg : forall n,
  n < maxRequests cfg ->
  (throttleThreshold cfg <= usedRatioOf n cfg)%Q ->
  0 <= scaled cfg n.
Proof.
  intros n Hn Hthr. unfold scaled.
  rewrite <- (Qfloor_Z 0). apply Qfloor_resp_le.
  apply Qmult_le_0_compat; [|apply retry_nonneg].
  unfold Qdiv. apply Qmult_le_0_compat.
  - lra.
  - apply Qlt_le_weak, Qinv_lt_0_compat. apply (room_below_limit n Hn Hthr).
Qed.

Lemma scaled_mono : forall n1 n2,
  n1 <= n2 -> n2 < maxRequests cfg ->
  (throttleThreshold cfg <= usedRatioOf n1 cfg)%Q ->
  scaled cfg n1 <= scaled cfg n2.
Proof.
  intros n1 n2 Hle Hn2 Hthr. unfold scaled.
  apply Qfloor_resp_le.
  apply Qmult_le_compat_r; [|apply retry_nonneg].
  unfold Qdiv. apply Qmult_le_compat_r.
  - pose proof (ratio_mono (maxRequests cfg) n1 n2 Hmax Hle) as Hr.
    unfold usedRatioOf. lra.
  - apply Qlt_le_weak, Qinv_lt_0_compat.
    apply (room_below_limit n1); [lia | exact Hthr].
Qed.

Lemma scaled_le_retry : forall n,
  n < maxRequests cfg ->
  (throttleThreshold cfg <= usedRatioOf n cfg)%Q ->
  scaled cfg n <= retryAfterMs cfg.
Proof.
  intros n Hn Hthr. unfold scaled.
  rewrite <- (Qfloor_Z (retryAfterMs cfg)) at 2. apply Qfloor_resp_le.
  rewrite <- (Qmult_1_l (inject_Z (retryAfterMs cfg))) at 2.
  apply Qmult_le_compat_r; [|apply retry_nonneg].
  apply Qle_shift_div_r; [apply (room_below_limit n Hn Hthr)|].
  pose proof (ratio_lt_one (maxRequests cfg) n Hmax Hn) as Hlt.
  unfold usedRatioOf. lra.
Qed.

End Scaled.

(** Below the limit the delay is 0 or the scaled delay. *)
Lemma getDelayMs_below_limit : forall cfg now rs,
  enabled cfg = true ->
  fst (currentCount now (mkLimiter cfg rs)) < maxRequests cfg ->
  fst (getDelayMs now (mkLimiter cfg rs))
  = if Qle_bool (throttleThreshold cfg)
         (usedRatioOf (fst (currentCount now (mkLimiter cfg rs))) cfg)
    then scaled cfg (fst (currentCount now (mkLimiter cfg rs)))
    else 0.
Proof.
  intros cfg now rs Hen. rewrite (getDelayMs_eq cfg now rs Hen), currentCount_eq.
  cbv zeta. simpl fst. intro Hlt.
  apply Z.leb_gt in Hlt. rewrite Hlt.
  destruct (Qle_bool _ _); reflexivity.
Qed.

(** C7, as the code has it.  For an enabled limiter with
    [maxRequests > 0] and [retryAfterMs >= 0], at one [now]: of two
    states whose counts are both below [maxRequests], the one with the
    larger count never has the smaller delay.  The state with the
    larger count may also be at the limit provided
    [throttleThreshold <= 1] and the wait for its oldest request,
    [oldest.timestamp + windowMs - now], is at least [retryAfterMs]. *)
Theorem delay_monotone_below_limit : forall cfg now rs1 rs2,
  enabled cfg = true ->
  0 < maxRequests cfg ->
  0 <= retryAfterMs cfg ->
  let rl1 := mkLimiter cfg rs1 in
  let rl2 := mkLimiter cfg rs2 in
  fst (currentCount now rl1) <= fst (currentCount now rl2) ->
  (fst (currentCount now rl2) < maxRequests cfg ->
   fst (getDelayMs now rl1) <= fst (getDelayMs now rl2))
  /\ (fst (currentCount now rl1) < maxRequests cfg ->
      maxRequests cfg <= fst (currentCount now rl2) ->
      (throttleThreshold cfg <= 1)%Q ->
      forall oldest rest,
      requests (snd (pruneOldRequests now rl2)) = oldest :: rest ->
      retryAfterMs cfg <= timestamp oldest + windowMs cfg - now ->
      fst (getDelayMs now rl1) <= fst (getDelayMs now rl2)).
Proof.
  intros cfg now rs1 rs2 Hen Hmax Hretry rl1 rl2 Hle. subst rl1 rl2.
  set (n1 := fst (currentCount now (mkLimiter cfg rs1))) in *.
  set (n2 := fst (currentCount now (mkLimiter cfg rs2))) in *.
  split.
  - intro Hn2.
    rewrite (getDelayMs_below_limit cfg now rs1 Hen) by (fold n1; lia).
    rewrite (getDelayMs_below_limit cfg now rs2 Hen) by exact Hn2.
    fold n1 n2.
    destruct (Qle_bool (throttleThreshold cfg) (usedRatioOf n1 cfg)) eqn:H1;
      destruct (Qle_bool (throttleThreshold cfg) (usedRatioOf n2 cfg)) eqn:H2.
    + apply scaled_mono; auto. apply Qle_bool_iff. exact H1.
    + exfalso. apply Qle_bool_iff in H1.
      assert (H2' : Qle_bool (throttleThreshold cfg) (usedRatioOf n2 cfg) = true).
      { apply Qle_bool_iff. apply Qle_trans with (1 := H1).
        apply ratio_mono; assumption. }
      congruence.
    + apply scaled_nonneg; auto. apply Qle_bool_iff. exact H2.
    + lia.
  - intros Hn1 Hn2 Hthr oldest rest Hold Hwait.
    rewrite (getDelayMs_at_limit cfg now rs2 oldest rest Hen Hmax Hthr Hn2 Hold).
    rewrite (getDelayMs_below_limit cfg now rs1 Hen) by exact Hn1.
    fold n1.
    destruct (Qle_bool (throttleThreshold cfg) (usedRatioOf n1 cfg)) eqn:H1.
    + apply Qle_bool_iff in H1.
      pose proof (scaled_le_retry cfg Hmax Hretry n1 Hn1 H1). lia.
    + lia.
Qed.

(** Counts 3 and 4 of 5 allowed: delays 200 and 600. *)
Lemma delay_monotone_below_limit_witness :
  let cfg := mkConfig true 5 1000 (1 # 2) 1000 3 in
  fst (getDelayMs 1000
         (mkLimiter cfg [mkStamp 900; mkStamp 1000; mkStamp 1000]))
  <= fst (getDelayMs 1000
            (mkLimiter cfg [mkStamp 0; mkStamp 900; mkStamp 1000; mkStamp 1000])).
Proof.
  intro cfg.
  refine (proj1 (delay_monotone_below_limit cfg 1000
                   [mkStamp 900; mkStamp 1000; mkStamp 1000]
                   [mkStamp 0; mkStamp 900; mkStamp 1000; mkStamp 1000]
                   eq_refl _ _ _) _);
    vm_compute; congruence.
Defined.

(** Four requests allowed per second, throttling from one half.  With
    three requests in the window the delay is 500; with four, the
    oldest of them about to leave the window, the delay is 0. *)
Lemma delay_at_limit_counterexample :
  let cfg := mkConfig true 4 1000 (1 # 2) 1000 3 in
  let three := mkLimiter cfg [mkStamp 1000; mkStamp 1000; mkStamp 1000] in
  let four :=
    mkLimiter cfg [mkStamp 0; mkStamp 1000; mkStamp 1000; mkStamp 1000] in
  fst (currentCount 1000 three) = 3
  /\ fst (currentCount 1000 four) = 4
  /\ fst (isThrottling 1000 three) = true
  /\ fst (getDelayMs 1000 three) = 500
  /\ fst (getDelayMs 1000 four) = 0
  /\ ~ fst (getDelayMs 1000 three) <= fst (getDelayMs 1000 four).
Proof.
  repeat split; try reflexivity. vm_compute. congruence.
Qed.

(** *** Recording requests *)

Lemma recordRequest_eq : forall cfg now rs,
  enabled cfg = true ->
  recordRequest now (mkLimiter cfg rs)
  = (tt, mkLimiter cfg (shift_while (now - windowMs cfg) rs ++ [mkStamp now])).
Proof.
  intros cfg now rs Hen. unfold recordRequest. simpl. rewrite Hen. reflexivity.
Qed.

(** Calls that all fall in one span [lo, lo + windowMs) prune nothing. *)
Lemma recordAll_within : forall cfg lo ts rs,
  enabled cfg = true ->
  Forall (fun t => lo <= t < lo + windowMs cfg) ts ->
  Forall (fun r => lo <= timestamp r) rs ->
  recordAll ts (mkLimiter cfg rs) = mkLimiter cfg (rs ++ map mkStamp ts).
Proof.
  intros cfg lo ts. induction ts as [|t ts IH]; intros rs Hen Hts Hrs.
  - simpl. rewrite app_nil_r. reflexivity.
  - inversion Hts as [|t' ts' Ht Hrest]; subst.
    simpl recordAll. rewrite (recordRequest_eq cfg t rs Hen). simpl snd.
    rewrite shift_while_keep.
    + rewrite IH; auto.
      * simpl. rewrite <- app_assoc. reflexivity.
      * apply Forall_app. split; [exact Hrs|].
        constructor; [simpl; lia | constructor].
    + eapply Forall_impl; [|exact Hrs]. simpl. intros r Hr. lia.
Qed.

Lemma shift_while_Forall : forall (P : RequestTimestamp -> Prop) cutoff rs,
  Forall P rs -> Forall P (shift_while cutoff rs).
Proof.
  intros P cutoff rs Hall. induction Hall as [|r rs Hr Hrs IH]; simpl.
  - constructor.
  - destruct (timestamp r <? cutoff); [exact IH | constructor; assumption].
Qed.

(** Whatever is in the sequence was in it before or was recorded. *)
Lemma recordAll_Forall : forall (P : RequestTimestamp -> Prop) cfg ts rs,
  Forall P rs -> Forall P (map mkStamp ts) ->
  Forall P (requests (recordAll ts (mkLimiter cfg rs))).
Proof.
  intros P cfg ts. induction ts as [|t ts IH]; intros rs Hrs Hts.
  - exact Hrs.
  - inversion Hts as [|r' ts' Ht Hrest]; subst.
    simpl recordAll. unfold recordRequest. simpl.
    destruct (negb (enabled cfg)); simpl.
    + apply IH; assumption.
    + apply IH; [|assumption].
      apply Forall_app. split; [apply shift_while_Forall; exact Hrs|].
      constructor; [exact Ht | constructor].
Qed.

Lemma recordAll_config : forall ts rl, config (recordAll ts rl) = config rl.
Proof.
  intros ts. induction ts as [|t ts IH]; intro rl; [reflexivity|].
  simpl. rewrite IH. unfold recordRequest.
  destruct (negb (enabled (config rl))); reflexivity.
Qed.

(** Under a clock that never goes back, the last instant is the
    largest. *)
Lemma sorted_last_max : forall early tl,
  Sorted Z.le (early ++ [tl]) -> Forall (fun t => t <= tl) (early ++ [tl]).
Proof.
  intros early tl Hs.
  apply Sorted_StronglySorted in Hs; [|exact Z.le_trans].
  induction early as [|a early IH]; simpl in *.
  - constructor; [lia | constructor].
  - inversion Hs as [|a' l' Hrest Ha]; subst.
    constructor; [|apply IH; exact Hrest].
    rewrite Forall_forall in Ha. apply Ha.
    apply in_or_app. right. left. reflexivity.
Qed.

(** C8.  On a fresh enabled limiter, after [N] [recordRequest()] calls
    at instants that all lie in one span shorter than [windowMs], read
    at an instant of that span: [currentCount()] is [N] and
    [remaining()] is [max(0, maxRequests - N)].  After any calls made
    under a clock that never goes back, read more than [windowMs] after
    the last of them: [currentCount()] is 0. *)
Theorem window_count : forall cfg ts,
  enabled cfg = true ->
  let rl := recordAll ts (create cfg) in
  let N := Z.of_nat (length ts) in
  (forall lo now,
     Forall (fun t => lo <= t < lo + windowMs cfg) ts ->
     lo <= now < lo + windowMs cfg ->
     fst (currentCount now rl) = N
     /\ fst (remaining now rl) = Z.max 0 (maxRequests cfg - N))
  /\ (forall early tl now,
        ts = early ++ [tl] ->
        Sorted Z.le ts ->
        tl + windowMs cfg < now ->
        fst (currentCount now rl) = 0).
Proof.
  intros cfg ts Hen rl N. subst rl N. unfold create. split.
  - intros lo now Hts Hnow.
    rewrite (recordAll_within cfg lo ts [] Hen Hts) by constructor.
    simpl app. rewrite remaining_eq, currentCount_eq. cbv zeta. simpl fst.
    rewrite shift_while_keep.
    + rewrite length_map. split; reflexivity.
    + apply Forall_map. eapply Forall_impl; [|exact Hts].
      simpl. intros t Ht. lia.
  - intros early tl now Hts Hsorted Hlate.
    pose proof (recordAll_Forall (fun r => timestamp r < now - windowMs cfg)
                  cfg ts [] (Forall_nil _)) as Hold.
    pose proof (recordAll_config ts (mkLimiter cfg [])) as Hcfg.
    destruct (recordAll ts (mkLimiter cfg [])) as [cfg' rs'].
    simpl in Hcfg, Hold.
    subst cfg'. rewrite currentCount_eq. cbv zeta. simpl fst.
    rewrite shift_while_drop; [reflexivity|].
    apply Hold. apply Forall_map. simpl.
    rewrite Hts in Hsorted. apply sorted_last_max in Hsorted.
    rewrite Hts. eapply Forall_impl; [|exact Hsorted].
    simpl. intros t Ht. lia.
Qed.

(** Three requests within 300 ms of a 1000 ms window of 5: count 3 and
    2 remaining; 1001 ms after the last one, count 0. *)
Lemma window_count_witness :
  let cfg := mkConfig true 5 1000 (8 # 10) 5000 3 in
  let rl := recordAll [100; 250; 400] (create cfg) in
  fst (currentCount 400 rl) = 3
  /\ fst (remaining 400 rl) = Z.max 0 (5 - 3)
  /\ fst (currentCount 1401 rl) = 0.
Proof.
  intros cfg rl.
  destruct (window_count cfg [100; 250; 400] eq_refl) as [Hin Hout].
  destruct (Hin 100 400) as [Hcount Hrem].
  - repeat constructor; simpl; lia.
  - simpl; lia.
  - split; [exact Hcount|]. split; [exact Hrem|].
    apply (Hout [100; 250] 400 1401 eq_refl).
    + repeat constructor; lia.
    + simpl; lia.
Defined.

End RateLimitProofs.

(* ================================================================== *)
(** * Properties of the retry policy *)
(* ================================================================== *)

Module RetryProofs.
Import Retry.

Section RetryFacts.

Variables T E W : Type.
Variable fn : W -> (T + E) * W.
Variable random : nat -> Q.
Variable sleep : Q -> W -> W.

(** The promise always settles: [maxRetries + 1] iterations are enough
    from attempt 0, and fewer from a later attempt. *)
Lemma retry_loop_total : forall (cfg : RetryConfig E) fuel attempt lastError env,
  maxRetries cfg + 1 - attempt <= Z.of_nat fuel ->
  exists r, retry_loop fn random sleep cfg fuel attempt lastError env
            = Some r.
Proof.
  intros cfg fuel.
  induction fuel as [|fuel IH]; intros attempt lastError env Hfuel; simpl.
  - destruct (attempt <=? maxRetries cfg) eqn:Hcond; [|eauto].
    apply Z.leb_le in Hcond. lia.
  - destruct (attempt <=? maxRetries cfg); [|eauto].
    destruct (fn (world env)) as [[v|e] w']; [eauto|].
    destruct (refuses cfg e); [eauto|].
    destruct (attempt =? maxRetries cfg); [eauto|].
    apply IH. lia.
Qed.

Lemma retryWithBackoff_total : forall (cfg : RetryConfig E) env,
  exists r, retryWithBackoff fn random sleep cfg env = Some r.
Proof.
  intros cfg env. unfold retryWithBackoff. apply retry_loop_total. lia.
Qed.

Lemma never_refuses_false : forall (cfg : RetryConfig E) e,
  never_refuses cfg -> refuses cfg e = false.
Proof.
  intros cfg e Hnever. unfold refuses.
  destruct (shouldRetry cfg) as [p|] eqn:Hp; [|reflexivity].
  rewrite (Hnever p e Hp). reflexivity.
Qed.

(** One iteration that fails, is not refused and is not the last one. *)
Lemma retry_loop_again : forall (cfg : RetryConfig E) fuel attempt lastError env e w',
  attempt < maxRetries cfg ->
  fn (world env) = (inr e, w') ->
  refuses cfg e = false ->
  retry_loop fn random sleep cfg (S fuel) attempt lastError env
  = let ms := (inject_Z (backoffDelay cfg attempt)
               + random (length (sleeps env))
                 * inject_Z (backoffDelay cfg attempt) * (1 # 10))%Q in
    retry_loop fn random sleep cfg fuel (attempt + 1) (Some e)
      (mkEnv (sleep ms w') (attempts env ++ [inr e]) (sleeps env ++ [ms])).
Proof.
  intros cfg fuel attempt lastError env e w' Hlt Hfn Hok. simpl.
  assert (Hcond : (attempt <=? maxRetries cfg) = true) by (apply Z.leb_le; lia).
  assert (Hmore : (attempt =? maxRetries cfg) = false) by (apply Z.eqb_neq; lia).
  rewrite Hcond, Hfn, Hok, Hmore. reflexivity.
Qed.

(** With [fuel] iterations left up to [maxRetries], all of them run and
    the last failure is what is thrown. *)
Lemma retry_loop_all_fail : forall cfg : RetryConfig E,
  always_fails fn -> never_refuses cfg ->
  forall fuel attempt lastError env,
  Z.of_nat (S fuel) = maxRetries cfg + 1 - attempt ->
  exists e earlier env',
    retry_loop fn random sleep cfg (S fuel) attempt lastError env
    = Some (Rejects (Some e), env')
    /\ attempts env' = attempts env ++ earlier ++ [inr e]
    /\ length earlier = fuel
    /\ length (sleeps env') = (length (sleeps env) + fuel)%nat.
Proof.
  intros cfg Hfail Hnever fuel.
  induction fuel as [|fuel IH]; intros attempt lastError env Hfuel.
  - simpl.
    assert (Hlast : attempt = maxRetries cfg) by lia.
    rewrite Hlast, Z.leb_refl, Z.eqb_refl.
    destruct (Hfail (world env)) as (e & w' & Hfn). rewrite Hfn.
    rewrite (never_refuses_false cfg e Hnever).
    exists e, [], (mkEnv w' (attempts env ++ [inr e])
                     (sleeps env)).
    simpl. rewrite Nat.add_0_r. auto.
  - destruct (Hfail (world env)) as (e & w' & Hfn).
    rewrite (retry_loop_again cfg (S fuel) attempt lastError env e w');
      [|lia|exact Hfn|apply never_refuses_false; exact Hnever].
    cbv zeta.
    match goal with
    | |- context [retry_loop _ _ _ _ (S fuel) (attempt + 1) ?le ?env2] =>
        destruct (IH (attempt + 1) le env2)
          as (e' & earlier & env' & Hrun & Hatt & Hlen & Hsl); [lia|]
    end.
    exists e', (inr e :: earlier), env'.
    split; [exact Hrun|]. split; [|split].
    + rewrite Hatt. simpl. rewrite <- app_assoc. reflexivity.
    + simpl. rewrite Hlen. reflexivity.
    + rewrite Hsl. simpl. rewrite length_app. simpl. lia.
Qed.

(** C2.  With [maxRetries >= 0], an operation that fails on every
    invocation and a [shouldRetry] that is absent or always true, the
    operation is invoked exactly [maxRetries + 1] times and the promise
    rejects with the very failure of the last invocation. *)
Theorem retry_exhaustion : forall (cfg : RetryConfig E) w0,
  0 <= maxRetries cfg ->
  always_fails fn ->
  never_refuses cfg ->
  exists e earlier env',
    retryWithBackoff fn random sleep cfg (mkEnv w0 [] [])
    = Some (Rejects (Some e), env')
    /\ attempts env' = earlier ++ [inr e]
    /\ Z.of_nat (length (attempts env')) = maxRetries cfg + 1.
Proof.
  intros cfg w0 Hpos Hfail Hnever. unfold retryWithBackoff.
  destruct (Z.to_nat (maxRetries cfg + 1)) as [|fuel] eqn:Hfuel; [lia|].
  destruct (retry_loop_all_fail cfg Hfail Hnever fuel 0 None
              (mkEnv w0 [] []))
    as (e & earlier & env' & Hrun & Hatt & Hlen & _); [lia|].
  exists e, earlier, env'. simpl in Hatt.
  split; [exact Hrun|]. split; [exact Hatt|].
  rewrite Hatt, length_app, Hlen. simpl. lia.
Qed.

(** C6.  With [maxRetries >= 0]: when the first invocation fails and
    [shouldRetry] answers false on that failure, the operation was
    invoked once, no delay was waited, and the promise rejects with that
    failure. *)
Theorem retry_refused_at_once : forall (cfg : RetryConfig E) w0 e w1 p,
  0 <= maxRetries cfg ->
  fn w0 = (inr e, w1) ->
  shouldRetry cfg = Some p ->
  p e = false ->
  retryWithBackoff fn random sleep cfg (mkEnv w0 [] [])
  = Some (Rejects (Some e), mkEnv w1 [inr e] []).
Proof.
  intros cfg w0 e w1 p Hpos Hfn Hp Hno. unfold retryWithBackoff.
  destruct (Z.to_nat (maxRetries cfg + 1)) as [|fuel] eqn:Hfuel; [lia|].
  simpl.
  assert (Hcond : (0 <=? maxRetries cfg) = true) by (apply Z.leb_le; exact Hpos).
  rewrite Hcond, Hfn. unfold refuses. rewrite Hp, Hno. reflexivity.
Qed.

End RetryFacts.

(** *** Concrete runs *)

(** [maxRetries = 1]: two invocations, the second failure is thrown. *)
Lemma retry_exhaustion_witness :
  exists e earlier env',
    retryWithBackoff failing (fun _ => 0%Q) (fun _ w => w)
      (mkRetryConfig 1 100 None None) (mkEnv 0%nat [] [])
    = Some (Rejects (Some e), env')
    /\ attempts env' = earlier ++ [inr e]
    /\ Z.of_nat (length (attempts env')) = 1 + 1.
Proof.
  apply (retry_exhaustion unit nat nat failing (fun _ => 0%Q) (fun _ w => w)
           (mkRetryConfig 1 100 None None) 0%nat).
  - simpl. lia.
  - intro w. exists w, (S w). reflexivity.
  - intros p e Hp. discriminate Hp.
Defined.

Example retry_exhaustion_run :
  retryWithBackoff failing (fun _ => 0%Q) (fun _ w => w)
    (mkRetryConfig 1 100 None None) (mkEnv 0%nat [] [])
  = Some (Rejects (Some 1%nat),
          mkEnv 2%nat [inr 0%nat; inr 1%nat] [(inject_Z 100 + 0 * inject_Z 100 * (1 # 10))%Q]).
Proof. reflexivity. Qed.

(** A predicate that refuses everything: one invocation, no delay. *)
Lemma retry_refused_at_once_witness :
  retryWithBackoff failing (fun _ => 0%Q) (fun _ w => w)
    (mkRetryConfig 3 100 None (Some (fun _ => false))) (mkEnv 0%nat [] [])
  = Some (Rejects (Some 0%nat), mkEnv 1%nat [inr 0%nat] []).
Proof.
  apply (retry_refused_at_once unit nat nat failing (fun _ => 0%Q)
           (fun _ w => w)
           (mkRetryConfig 3 100 None (Some (fun _ => false)))
           0%nat 0%nat 1%nat (fun _ => false)).
  - simpl. lia.
  - reflexivity.
  - reflexivity.
  - reflexivity.
Defined.

End RetryProofs.

(* ================================================================== *)
(** * More on the retry policy *)
(* ================================================================== *)

Module RetryMore.
Import Retry.

Section AnyOperation.

Variables T E W : Type.
Variable fn : W -> (T + E) * W.
Variable random : nat -> Q.
Variable sleep : Q -> W -> W.
Variable cfg : RetryConfig E.

(** The shape of every run of the loop from [attempt], the waits so far
    being as many as the attempts so far. *)
Lemma retry_loop_shape : forall fuel attempt lastError env,
  Z.of_nat (S fuel) = maxRetries cfg + 1 - attempt ->
  Z.of_nat (length (sleeps env)) = attempt ->
  exists out env' earlier lastr,
    retry_loop fn random sleep cfg (S fuel) attempt lastError env
    = Some (out, env')
    /\ attempts env' = attempts env ++ earlier ++ [lastr]
    /\ out = settle lastr
    /\ Forall (retried cfg) earlier
    /\ sleeps env'
       = sleeps env
         ++ map (waitAt random cfg) (seq (length (sleeps env)) (length earlier))
    /\ (length earlier <= fuel)%nat
    /\ (forall error, lastr = inr error ->
        refuses cfg error = true \/ length earlier = fuel).
Proof.
  induction fuel as [|fuel IH]; intros attempt lastError env Hfuel Hsl.
  - assert (Hlast : attempt = maxRetries cfg) by lia.
    simpl. rewrite Hlast, Z.leb_refl, Z.eqb_refl.
    destruct (fn (world env)) as [[v|e] w'].
    + exists (Resolves v), (mkEnv w' (attempts env ++ [inl v]) (sleeps env)),
        [], (inl v).
      simpl. rewrite app_nil_r. repeat split; auto; intros; discriminate.
    + exists (Rejects (Some e)),
        (mkEnv w' (attempts env ++ [inr e]) (sleeps env)), [], (inr e).
      simpl. rewrite app_nil_r.
      destruct (refuses cfg e); repeat split; auto.
  - assert (Hcond : (attempt <=? maxRetries cfg) = true) by (apply Z.leb_le; lia).
    assert (Hmore : (attempt =? maxRetries cfg) = false) by (apply Z.eqb_neq; lia).
    cbn [retry_loop]. rewrite Hcond.
    destruct (fn (world env)) as [[v|e] w'] eqn:Hfn.
    + exists (Resolves v), (mkEnv w' (attempts env ++ [inl v]) (sleeps env)),
        [], (inl v).
      simpl. rewrite app_nil_r. repeat split; auto; try lia; intros; discriminate.
    + destruct (refuses cfg e) eqn:Href.
      * exists (Rejects (Some e)),
          (mkEnv w' (attempts env ++ [inr e]) (sleeps env)), [], (inr e).
        simpl. rewrite app_nil_r. repeat split; auto; try lia.
        intros error Herr. inversion Herr; subst. left. exact Href.
      * rewrite Hmore. cbv zeta. cbn [world attempts sleeps].
        set (ms := (inject_Z (backoffDelay cfg attempt)
                    + random (length (sleeps env))
                      * inject_Z (backoffDelay cfg attempt) * (1 # 10))%Q).
        assert (Hms : ms = waitAt random cfg (length (sleeps env))).
        { unfold ms, waitAt. rewrite Hsl. reflexivity. }
        destruct (IH (attempt + 1) (Some e)
                    (mkEnv (sleep ms w') (attempts env ++ [inr e])
                       (sleeps env ++ [ms])))
          as (out & env' & earlier & lastr & Hrun & Hatt & Hout & Hall & Hsleeps
              & Hlen & Hend).
        { lia. }
        { simpl. rewrite length_app. simpl. lia. }
        exists out, env', (inr e :: earlier), lastr.
        split; [exact Hrun|]. simpl in Hatt, Hsleeps.
        split; [rewrite Hatt, <- app_assoc; reflexivity|].
        split; [exact Hout|].
        split; [constructor; [exists e; auto | exact Hall]|].
        split.
        { rewrite Hsleeps, <- app_assoc, length_app. simpl.
          rewrite Hms, Nat.add_1_r. reflexivity. }
        split; [simpl; lia|].
        intros error Herr. destruct (Hend error Herr) as [Hr|Hl]; [left|right];
          simpl; auto.
Qed.

(** The shape of a run from a fresh log, for [maxRetries >= 0]. *)
Lemma retry_fresh_shape : forall w0,
  0 <= maxRetries cfg ->
  exists out env' earlier lastr,
    retryWithBackoff fn random sleep cfg (mkEnv w0 [] []) = Some (out, env')
    /\ attempts env' = earlier ++ [lastr]
    /\ out = settle lastr
    /\ Forall (retried cfg) earlier
    /\ Z.of_nat (length (attempts env')) <= maxRetries cfg + 1
    /\ sleeps env' = map (waitAt random cfg) (seq 0 (length earlier))
    /\ (forall error, lastr = inr error ->
        refuses cfg error = true
        \/ Z.of_nat (length (attempts env')) = maxRetries cfg + 1).
Proof.
  intros w0 Hpos. unfold retryWithBackoff.
  destruct (Z.to_nat (maxRetries cfg + 1)) as [|fuel] eqn:Hfuel; [lia|].
  destruct (retry_loop_shape fuel 0 None (mkEnv w0 [] []))
    as (out & env' & earlier & lastr & Hrun & Hatt & Hout & Hall & Hsleeps
        & Hlen & Hend); [lia|reflexivity|].
  simpl in Hatt, Hsleeps.
  exists out, env', earlier, lastr.
  repeat (split; [assumption|]).
  assert (Hcount : length (attempts env') = S (length earlier))
    by (rewrite Hatt, length_app; simpl; lia).
  split; [lia|]. split; [exact Hsleeps|].
  intros error Herr. destruct (Hend error Herr) as [Hr|Hl]; [left; exact Hr|].
  right. lia.
Qed.

(** The promise of [retryWithBackoff], for any operation.  With
    [maxRetries >= 0] it always settles, after at least one and at most
    [maxRetries + 1] invocations; it settles to the result of the last
    invocation as it is (its value, or its failure unwrapped); every
    earlier invocation failed with a failure that [shouldRetry] let
    pass; there is one wait per earlier invocation, the [i]-th being
    [min(baseDelayMs * 2^i, maxDelayMs || 60000)] plus its jitter; and a
    last invocation that failed was either refused by [shouldRetry] or
    the [maxRetries + 1]-th.  With [maxRetries < 0] the operation is
    never invoked and the promise rejects with [undefined]. *)
Theorem retry_settles_on_last_attempt : forall w0,
  (0 <= maxRetries cfg ->
   exists out env' earlier lastr,
     retryWithBackoff fn random sleep cfg (mkEnv w0 [] []) = Some (out, env')
     /\ attempts env' = earlier ++ [lastr]
     /\ out = settle lastr
     /\ Forall (retried cfg) earlier
     /\ Z.of_nat (length (attempts env')) <= maxRetries cfg + 1
     /\ sleeps env' = map (waitAt random cfg) (seq 0 (length earlier))
     /\ (forall error, lastr = inr error ->
         refuses cfg error = true
         \/ Z.of_nat (length (attempts env')) = maxRetries cfg + 1))
  /\ (maxRetries cfg < 0 ->
      retryWithBackoff fn random sleep cfg (mkEnv w0 [] [])
      = Some (Rejects None, mkEnv w0 [] [])).
Proof.
  intro w0. split.
  - apply retry_fresh_shape.
  - intro Hneg. unfold retryWithBackoff.
    replace (Z.to_nat (maxRetries cfg + 1)) with 0%nat by lia.
    simpl. assert (Hcond : (0 <=? maxRetries cfg) = false) by (apply Z.leb_gt; lia).
    rewrite Hcond. reflexivity.
Qed.

End AnyOperation.

(** One flaky operation, failing once: two invocations, one wait. *)
Lemma retry_settles_on_last_attempt_witness :
  let cfg : RetryConfig nat := mkRetryConfig 3 100 None None in
  exists out env' earlier lastr,
    retryWithBackoff (flaky 1 (fun n => n) tt) (fun _ => 0%Q) (fun _ w => w)
      cfg (mkEnv 0%nat [] [])
    = Some (out, env')
    /\ attempts env' = earlier ++ [lastr]
    /\ out = settle lastr
    /\ Forall (retried cfg) earlier
    /\ Z.of_nat (length (attempts env')) <= 3 + 1
    /\ sleeps env' = map (waitAt (fun _ => 0%Q) cfg) (seq 0 (length earlier))
    /\ (forall error, lastr = inr error ->
        refuses cfg error = true
        \/ Z.of_nat (length (attempts env')) = 3 + 1).
Proof.
  intro cfg.
  apply (proj1 (retry_settles_on_last_attempt unit nat nat
                  (flaky 1 (fun n => n) tt) (fun _ => 0%Q) (fun _ w => w)
                  cfg 0%nat)).
  simpl. lia.
Defined.

Section Flaky.

Variables T E : Type.
Variable failure : nat -> E.
Variable value : T.
Variable random : nat -> Q.
Variable cfg : RetryConfig E.
Variable k : nat.

Hypothesis Hretried : forall n, (n < k)%nat -> refuses cfg (failure n) = false.

Lemma flaky_from : forall j n fuel lastError (env : Env T E nat),
  (n + j = k)%nat ->
  world env = n ->
  length (sleeps env) = n ->
  (j <= fuel)%nat ->
  Z.of_nat k <= maxRetries cfg ->
  retry_loop (flaky k failure value) random (fun _ w => w) cfg (S fuel)
    (Z.of_nat n) lastError env
  = Some (Resolves value,
          mkEnv (S k)
            (attempts env ++ map (fun i => inr (failure i)) (seq n j)
             ++ [inl value])
            (sleeps env ++ map (waitAt random cfg) (seq n j))).
Proof.
  induction j as [|j IH]; intros n fuel lastError env Hk Hw Hs Hfuel Hmax.
  - assert (Hn : n = k) by lia. rewrite Hn in *. clear Hn.
    assert (Hcond : (Z.of_nat k <=? maxRetries cfg) = true)
      by (apply Z.leb_le; exact Hmax).
    cbn [retry_loop]. rewrite Hcond. unfold flaky.
    rewrite Hw, Nat.ltb_irrefl. simpl. rewrite app_nil_r. reflexivity.
  - destruct fuel as [|fuel]; [lia|].
    rewrite (RetryProofs.retry_loop_again T E nat (flaky k failure value)
               random (fun _ w => w) cfg (S fuel) (Z.of_nat n) lastError env
               (failure n) (S n)).
    + cbv zeta. replace (Z.of_nat n + 1) with (Z.of_nat (S n)) by lia.
      rewrite IH; simpl; try lia.
      * rewrite Hs. unfold waitAt at 3.
        rewrite <- !app_assoc. reflexivity.
      * rewrite length_app. simpl. lia.
    + lia.
    + unfold flaky. rewrite Hw.
      assert (Hlt : (n <? k)%nat = true) by (apply Nat.ltb_lt; lia).
      rewrite Hlt. reflexivity.
    + apply Hretried. lia.
Qed.

(** An operation that fails its first [k] invocations, with failures
    that [shouldRetry] lets pass, and then succeeds: when
    [k <= maxRetries] the promise resolves with the value after exactly
    [k + 1] invocations and [k] waits. *)
Theorem retry_recovers : 
  Z.of_nat k <= maxRetries cfg ->
  retryWithBackoff (flaky k failure value) random (fun _ w => w) cfg
    (mkEnv 0%nat [] [])
  = Some (Resolves value,
          mkEnv (S k)
            (map (fun i => inr (failure i)) (seq 0 k) ++ [inl value])
            (map (waitAt random cfg) (seq 0 k))).
Proof.
  intro Hmax. unfold retryWithBackoff.
  destruct (Z.to_nat (maxRetries cfg + 1)) as [|fuel] eqn:Hfuel; [lia|].
  apply (flaky_from k 0%nat fuel None (mkEnv 0%nat [] [])); auto; lia.
Qed.

End Flaky.

(** Failing once, [maxRetries = 3]: resolved after two invocations. *)
Lemma retry_recovers_witness :
  let cfg : RetryConfig nat := mkRetryConfig 3 100 None None in
  retryWithBackoff (flaky 1 (fun n => n) tt) (fun _ => 0%Q) (fun _ w => w)
    cfg (mkEnv 0%nat [] [])
  = Some (Resolves tt,
          mkEnv 2%nat [inr 0%nat; inl tt] [waitAt (fun _ => 0%Q) cfg 0]).
Proof.
  intro cfg.
  apply (retry_recovers unit nat (fun n => n) tt (fun _ => 0%Q) cfg 1).
  - intros n Hn. reflexivity.
  - simpl. lia.
Defined.



End RetryMore.

(* ================================================================== *)
(** * More on the rate limiter *)
(* ================================================================== *)

Module RateLimitMore.
Import RateLimit.
Import RateLimitProofs.

(** *** The window under a clock that never goes back *)

(** Pruning at a smaller cutoff first changes nothing. *)
Lemma shift_while_twice : forall c1 c2 rs tail,
  c1 <= c2 ->
  shift_while c2 (shift_while c1 rs ++ tail) = shift_while c2 (rs ++ tail).
Proof.
  intros c1 c2 rs tail Hc. induction rs as [|r rs IH]; simpl; [reflexivity|].
  destruct (timestamp r <? c1) eqn:Hr; [|reflexivity].
  apply Z.ltb_lt in Hr.
  assert (Hr2 : (timestamp r <? c2) = true) by (apply Z.ltb_lt; lia).
  rewrite Hr2. exact IH.
Qed.


(** Reading at [now], it is as if no call before [now] had pruned. *)
Lemma recordAll_pruned_late : forall cfg now ts rs,
  enabled cfg = true ->
  Forall (fun t => t <= now) ts ->
  shift_while (now - windowMs cfg)
    (requests (recordAll ts (mkLimiter cfg rs)))
  = shift_while (now - windowMs cfg) (rs ++ map mkStamp ts).
Proof.
  intros cfg now ts. induction ts as [|t ts IH]; intros rs Hen Hts.
  - simpl. rewrite app_nil_r. reflexivity.
  - inversion Hts as [|t' ts' Ht Hrest]; subst.
    simpl recordAll. rewrite (recordRequest_eq cfg t rs Hen). simpl snd.
    rewrite IH by assumption.
    rewrite <- app_assoc. simpl map.
    apply shift_while_twice. lia.
Qed.

Lemma filter_keeps_all : forall (f : Z -> bool) l,
  Forall (fun t => f t = true) l -> filter f l = l.
Proof.
  intros f l Hall. induction Hall as [|t l Ht _ IH]; simpl; [reflexivity|].
  rewrite Ht, IH. reflexivity.
Qed.

(** On a sorted sequence, pruning from the front is filtering. *)
Lemma shift_while_sorted : forall cutoff ts,
  StronglySorted Z.le ts ->
  shift_while cutoff (map mkStamp ts)
  = map mkStamp (filter (fun t => cutoff <=? t) ts).
Proof.
  intros cutoff ts Hs. induction Hs as [|t ts Hs IH Hall]; simpl; [reflexivity|].
  destruct (Z.ltb_spec t cutoff) as [Hlt|Hge].
  - assert (Hf : (cutoff <=? t) = false) by (apply Z.leb_gt; exact Hlt).
    rewrite Hf. exact IH.
  - assert (Hf : (cutoff <=? t) = true) by (apply Z.leb_le; exact Hge).
    rewrite Hf. simpl. rewrite filter_keeps_all; [reflexivity|].
    eapply Forall_impl; [|exact Hall]. simpl. intros a Ha.
    apply Z.leb_le. lia.
Qed.


(** The count is the sliding-window count.  On a fresh enabled limiter,
    after [recordRequest()] calls at instants [ts] under a clock that
    never goes back, [currentCount()] read at [now], not before the
    last call, is the number of calls made at [now - windowMs] or
    later, and [remaining()] is [maxRequests] minus that, floored at 0. *)
Theorem sliding_window_count : forall cfg ts now,
  enabled cfg = true ->
  Sorted Z.le ts ->
  Forall (fun t => t <= now) ts ->
  let inWindow := filter (fun t => now - windowMs cfg <=? t) ts in
  let rl := recordAll ts (create cfg) in
  fst (currentCount now rl) = Z.of_nat (length inWindow)
  /\ fst (remaining now rl)
     = Z.max 0 (maxRequests cfg - Z.of_nat (length inWindow))
  /\ requests (snd (currentCount now rl)) = map mkStamp inWindow.
Proof.
  intros cfg ts now Hen Hsorted Hpast inWindow rl. subst inWindow rl.
  apply Sorted_StronglySorted in Hsorted; [|exact Z.le_trans].
  pose proof (recordAll_pruned_late cfg now ts [] Hen Hpast) as Hlate.
  pose proof (recordAll_config ts (mkLimiter cfg [])) as Hcfg.
  unfold create.
  destruct (recordAll ts (mkLimiter cfg [])) as [cfg' rs'].
  simpl in Hlate, Hcfg. subst cfg'.
  rewrite remaining_eq, currentCount_eq. cbv zeta. simpl fst. simpl snd.
  simpl requests.
  rewrite Hlate, (shift_while_sorted _ ts Hsorted), length_map.
  repeat split; reflexivity.
Qed.

(** Five calls over 1.2 s, a window of 1 s: the two oldest have left. *)
Lemma sliding_window_count_witness :
  let cfg := mkConfig true 10 1000 (8 # 10) 100 3 in
  fst (currentCount 1300 (recordAll [0; 200; 400; 900; 1200] (create cfg)))
  = Z.of_nat (length [400; 900; 1200]).
Proof.
  intro cfg.
  refine (proj1 (sliding_window_count cfg [0; 200; 400; 900; 1200] 1300
                   eq_refl _ _)).
  - repeat constructor; lia.
  - repeat constructor; lia.
Defined.



(** *** Bounds of the delay *)

Lemma shift_while_head : forall cutoff rs r rest,
  shift_while cutoff rs = r :: rest -> cutoff <= timestamp r.
Proof.
  intros cutoff rs. induction rs as [|a rs IH]; intros r rest H; simpl in H.
  - discriminate.
  - destruct (Z.ltb_spec (timestamp a) cutoff) as [Hlt|Hge].
    + apply (IH r rest H).
    + inversion H; subst. exact Hge.
Qed.

(** The delay is never negative and never more than the larger of
    [retryAfterMs] and [windowMs]; below the limit it is at most
    [retryAfterMs].  This holds with [maxRequests > 0], [retryAfterMs]
    and [windowMs] not negative, and no stored instant in the future. *)
Theorem delay_bounds : forall cfg now rs,
  0 < maxRequests cfg ->
  0 <= retryAfterMs cfg ->
  0 <= windowMs cfg ->
  Forall (fun r => timestamp r <= now) rs ->
  let rl := mkLimiter cfg rs in
  0 <= fst (getDelayMs now rl) <= Z.max (retryAfterMs cfg) (windowMs cfg)
  /\ (fst (currentCount now rl) < maxRequests cfg ->
      fst (getDelayMs now rl) <= retryAfterMs cfg).
Proof.
  intros cfg now rs Hmax Hretry Hw Hpast rl. subst rl.
  destruct (enabled cfg) eqn:Hen.
  2:{ assert (H0 : fst (getDelayMs now (mkLimiter cfg rs)) = 0).
      { unfold getDelayMs, bind, getConfig. simpl. rewrite Hen. reflexivity. }
      rewrite H0. split; lia. }
  rewrite (getDelayMs_eq cfg now rs Hen), currentCount_eq.
  cbv zeta. cbn [fst].
  pose proof (shift_while_Forall _ (now - windowMs cfg) rs Hpast) as Hpruned.
  set (pruned := shift_while (now - windowMs cfg) rs) in *.
  set (count := Z.of_nat (length pruned)).
  destruct (Qle_bool (throttleThreshold cfg) (usedRatioOf count cfg)) eqn:Hthr;
    cbn [negb]; [|split; lia].
  apply Qle_bool_iff in Hthr.
  destruct (Z.leb_spec (maxRequests cfg) count) as [Hlim|Hfree].
  - destruct pruned as [|oldest rest] eqn:Hp.
    + subst count. simpl in Hlim. lia.
    + inversion Hpruned as [|r l Hold _]; subst.
      split; [lia|]. intro Hfree. clearbody count. lia.
  - pose proof (scaled_nonneg cfg Hmax Hretry count Hfree Hthr).
    pose proof (scaled_le_retry cfg Hmax Hretry count Hfree Hthr).
    fold (scaled cfg count). clearbody count. split; [lia|]. intros _. lia.
Qed.

Lemma delay_bounds_witness :
  let cfg := mkConfig true 4 1000 (1 # 2) 300 3 in
  let rl := mkLimiter cfg [mkStamp 900; mkStamp 1000; mkStamp 1000] in
  0 <= fst (getDelayMs 1000 rl) <= Z.max 300 1000
  /\ fst (getDelayMs 1000 rl) <= 300.
Proof.
  intros cfg rl.
  destruct (delay_bounds cfg 1000 [mkStamp 900; mkStamp 1000; mkStamp 1000])
    as [Hall Hbelow].
  - reflexivity.
  - simpl; lia.
  - simpl; lia.
  - repeat constructor; simpl; lia.
  - split; [exact Hall|]. apply Hbelow. vm_compute. reflexivity.
Defined.

(** Waiting [getDelayMs()] at the limit frees no slot.  For an enabled
    limiter at the limit, with [maxRequests > 0], [throttleThreshold <= 1]
    and [windowMs >= 0]: at the instant the wait ends, the oldest
    request is still counted (pruning drops only instants strictly
    older than [now - windowMs]), so the count is unchanged, the
    limiter is still limited and [getDelayMs()] is now 0; the request
    recorded then brings the count one above what it was. *)
Theorem wait_at_limit_frees_no_slot : forall cfg now rs,
  enabled cfg = true ->
  0 < maxRequests cfg ->
  (throttleThreshold cfg <= 1)%Q ->
  0 <= windowMs cfg ->
  let count := fst (currentCount now (mkLimiter cfg rs)) in
  let delay := fst (getDelayMs now (mkLimiter cfg rs)) in
  let rl := snd (getDelayMs now (mkLimiter cfg rs)) in
  maxRequests cfg <= count ->
  fst (currentCount (now + delay) rl) = count
  /\ fst (isLimited (now + delay) rl) = true
  /\ fst (getDelayMs (now + delay) rl) = 0
  /\ fst (currentCount (now + delay) (snd (recordRequest (now + delay) rl)))
     = count + 1.
Proof.
  intros cfg now rs Hen Hmax Hthr Hw count delay rl Hlim.
  subst count delay rl.
  rewrite currentCount_eq in Hlim. cbv zeta in Hlim. simpl fst in Hlim.
  destruct (shift_while (now - windowMs cfg) rs) as [|oldest rest] eqn:Hp;
    [simpl in Hlim; lia|].
  pose proof (shift_while_head _ _ _ _ Hp) as Hold.
  assert (Hdelay : fst (getDelayMs now (mkLimiter cfg rs))
                   = timestamp oldest + windowMs cfg - now).
  { rewrite (getDelayMs_at_limit cfg now rs oldest rest Hen Hmax Hthr).
    - lia.
    - rewrite currentCount_eq. cbv zeta. simpl fst. rewrite Hp. exact Hlim.
    - simpl. exact Hp. }
  assert (Hrl : snd (getDelayMs now (mkLimiter cfg rs))
                = mkLimiter cfg (oldest :: rest)).
  { rewrite (getDelayMs_eq cfg now rs Hen). cbv zeta. simpl snd.
    rewrite Hp. reflexivity. }
  rewrite currentCount_eq. cbv zeta. simpl fst. rewrite Hp.
  rewrite Hdelay, Hrl.
  replace (now + (timestamp oldest + windowMs cfg - now))
    with (timestamp oldest + windowMs cfg) by lia.
  assert (Hkeep : forall tail,
    shift_while (timestamp oldest + windowMs cfg - windowMs cfg)
      (oldest :: rest ++ tail) = oldest :: rest ++ tail).
  { intro tail. simpl.
    assert (Hf : (timestamp oldest
                  <? timestamp oldest + windowMs cfg - windowMs cfg) = false)
      by (apply Z.ltb_ge; lia).
    rewrite Hf. reflexivity. }
  pose proof (Hkeep []) as Hkeep0. rewrite app_nil_r in Hkeep0.
  split; [|split; [|split]].
  - cbn [config requests]. rewrite Hkeep0. reflexivity.
  - rewrite (isLimited_eq cfg _ _ Hen). cbv zeta. cbn [fst].
    rewrite Hkeep0. apply Z.leb_le. exact Hlim.
  - rewrite (getDelayMs_at_limit cfg _ (oldest :: rest) oldest rest
               Hen Hmax Hthr).
    + lia.
    + rewrite currentCount_eq. cbv zeta. cbn [fst]. rewrite Hkeep0. exact Hlim.
    + cbn [pruneOldRequests snd config requests]. exact Hkeep0.
  - rewrite (recordRequest_eq cfg _ _ Hen). cbn [snd config requests].
    rewrite Hkeep0. change ((oldest :: rest) ++ ?t) with (oldest :: rest ++ t).
    rewrite Hkeep. cbn [length]. rewrite length_app. cbn [length]. lia.
Qed.

(** Two requests allowed, both made at 0 and 400: at 600 the wait is
    400, and at 1000 the count is still 2, then 3. *)
Lemma wait_at_limit_frees_no_slot_witness :
  let cfg := mkConfig true 2 1000 (1 # 2) 100 3 in
  let rl0 := mkLimiter cfg [mkStamp 0; mkStamp 400] in
  let delay := fst (getDelayMs 600 rl0) in
  let rl := snd (getDelayMs 600 rl0) in
  delay = 400
  /\ fst (currentCount (600 + delay) rl) = fst (currentCount 600 rl0)
  /\ fst (isLimited (600 + delay) rl) = true
  /\ fst (getDelayMs (600 + delay) rl) = 0
  /\ fst (currentCount (600 + delay) (snd (recordRequest (600 + delay) rl)))
     = fst (currentCount 600 rl0) + 1.
Proof.
  intros cfg rl0 delay rl. split; [reflexivity|].
  apply (wait_at_limit_frees_no_slot cfg 600 [mkStamp 0; mkStamp 400]).
  - reflexivity.
  - reflexivity.
  - vm_compute. discriminate.
  - simpl. lia.
  - vm_compute. discriminate.
Defined.

(** *** A disabled limiter *)

(** With [enabled = false] the limiter is inert: [recordRequest()]
    stores nothing, whatever the calls; [getDelayMs()] is 0 and leaves
    the stored sequence as it is; the limiter is never throttling and
    never limited; [waitIfNeeded()] never sleeps. *)
Theorem disabled_limiter_is_inert : forall cfg rs ts now,
  enabled cfg = false ->
  let rl := mkLimiter cfg rs in
  recordAll ts rl = rl
  /\ getDelayMs now rl = (0, rl)
  /\ fst (isThrottling now rl) = false
  /\ fst (isLimited now rl) = false
  /\ fst (waitIfNeeded now rl) = None
  /\ fst (currentCount now (recordAll ts (create cfg))) = 0.
Proof.
  intros cfg rs ts now Hoff rl. subst rl.
  assert (Hrec : forall rs0, recordAll ts (mkLimiter cfg rs0) = mkLimiter cfg rs0).
  { induction ts as [|t ts IH]; intro rs0; [reflexivity|].
    simpl. unfold recordRequest. simpl. rewrite Hoff. simpl. apply IH. }
  assert (Hdelay : getDelayMs now (mkLimiter cfg rs) = (0, mkLimiter cfg rs)).
  { unfold getDelayMs, bind, getConfig. cbn [config]. rewrite Hoff. reflexivity. }
  split; [apply Hrec|]. split; [exact Hdelay|].
  split; [unfold isThrottling, bind, getConfig; cbn [config]; rewrite Hoff;
          reflexivity|].
  split; [unfold isLimited, bind, getConfig; cbn [config]; rewrite Hoff;
          reflexivity|].
  split.
  - unfold waitIfNeeded, bind. rewrite Hdelay. reflexivity.
  - unfold create. rewrite Hrec. reflexivity.
Qed.

Lemma disabled_limiter_is_inert_witness :
  let cfg := mkConfig false 2 1000 (1 # 2) 100 3 in
  recordAll [1; 2; 3] (mkLimiter cfg []) = mkLimiter cfg []
  /\ getDelayMs 5 (mkLimiter cfg []) = (0, mkLimiter cfg []).
Proof.
  intro cfg.
  destruct (disabled_limiter_is_inert cfg [] [1; 2; 3] 5 eq_refl)
    as (Hrec & Hdelay & _).
  split; [exact Hrec | exact Hdelay].
Defined.

(** *** The status snapshot *)




(** *** When the limiter throttles *)

Lemma ratio_ge_iff : forall (thr : Q) m n,
  0 < m ->
  (thr <= inject_Z n / inject_Z m <-> thr * inject_Z m <= inject_Z n)%Q.
Proof.
  intros thr m n Hm.
  assert (HmQ : (0 < inject_Z m)%Q)
    by (change 0%Q with (inject_Z 0); rewrite <- Zlt_Qlt; exact Hm).
  split.
  - intro H.
    apply (Qmult_le_compat_r _ _ (inject_Z m)) in H; [|apply Qlt_le_weak; exact HmQ].
    assert (Hne : ~ (inject_Z m == 0)%Q) by (intro Hz; rewrite Hz in HmQ; inversion HmQ).
    rewrite (Qmult_comm (inject_Z n / inject_Z m)), Qmult_div_r in H by exact Hne.
    exact H.
  - intro H. apply Qle_shift_div_l; assumption.
Qed.

(** After calls under a clock that never goes back, with [n] of them at
    [now - windowMs] or later and [maxRequests > 0], an enabled limiter
    read at [now] is limited exactly when [n >= maxRequests] and
    throttling exactly when [n >= throttleThreshold * maxRequests]. *)
Theorem throttles_from_threshold : forall cfg ts now,
  enabled cfg = true ->
  0 < maxRequests cfg ->
  Sorted Z.le ts ->
  Forall (fun t => t <= now) ts ->
  let n := Z.of_nat (length (filter (fun t => now - windowMs cfg <=? t) ts)) in
  let rl := recordAll ts (create cfg) in
  (fst (isLimited now rl) = true <-> maxRequests cfg <= n)
  /\ (fst (isThrottling now rl) = true
      <-> (throttleThreshold cfg * inject_Z (maxRequests cfg) <= inject_Z n)%Q).
Proof.
  intros cfg ts now Hen Hmax Hsorted Hpast n rl. subst n rl.
  apply Sorted_StronglySorted in Hsorted; [|exact Z.le_trans].
  pose proof (recordAll_pruned_late cfg now ts [] Hen Hpast) as Hlate.
  pose proof (recordAll_config ts (mkLimiter cfg [])) as Hcfg.
  unfold create.
  destruct (recordAll ts (mkLimiter cfg [])) as [cfg' rs'].
  simpl in Hlate, Hcfg. subst cfg'.
  rewrite (isLimited_eq cfg now rs' Hen), (isThrottling_eq cfg now rs' Hen).
  cbv zeta. cbn [fst].
  rewrite Hlate, (shift_while_sorted _ ts Hsorted), length_map.
  split; [apply Z.leb_le|].
  rewrite Qle_bool_iff. unfold usedRatioOf. apply ratio_ge_iff. exact Hmax.
Qed.

(** Ten allowed, threshold 0.8: the eighth request starts throttling. *)
Lemma throttles_from_threshold_witness :
  let cfg := mkConfig true 10 1000 (8 # 10) 100 3 in
  fst (isThrottling 8 (recordAll [1; 2; 3; 4; 5; 6; 7; 8] (create cfg))) = true
  /\ fst (isThrottling 7 (recordAll [1; 2; 3; 4; 5; 6; 7] (create cfg))) = false
  /\ fst (isLimited 8 (recordAll [1; 2; 3; 4; 5; 6; 7; 8] (create cfg))) = false.
Proof.
  intro cfg. split; [|split; reflexivity].
  refine (proj2 (proj2 (throttles_from_threshold cfg [1; 2; 3; 4; 5; 6; 7; 8] 8
                   eq_refl _ _ _)) _).
  - reflexivity.
  - repeat constructor; lia.
  - repeat constructor; lia.
  - vm_compute. discriminate.
Defined.

End RateLimitMore.

(* ================================================================== *)
(** * More on the pagination engine *)
(* ================================================================== *)

Module PaginationMore.
Import Pagination.
Import PaginationProofs.

Section AnyFetcher.

Variables T E W : Type.
Variable fetcher : FetchParams -> W -> (Connection T + E) * W.

(** *** Walking a chain of pages *)

Lemma collect_chain_from : forall options after w pages w',
  maxItems options = None ->
  page_chain fetcher (resolvePageSize options) after w pages w' ->
  forall fuel acc (st : CursorState T) (env : Env W),
  (length (currentItems st) <= currentIndex st)%nat ->
  hasMore st = true ->
  endCursorVar st = after ->
  world env = w ->
  exists st',
    cursor_toArray_from fetcher options
      (length (items_of pages) + S fuel) acc st env
    = Some (inl (acc ++ items_of pages), st',
            mkEnv w' (calls env
                      ++ chain_calls (resolvePageSize options) after pages)).
Proof.
  intros options after w pages w' Hcap Hchain.
  induction Hchain as [after w c w' Hf Hne Hlast
                      | after w c w1 cs w' Hf Hne Hnext Hrest IH];
    intros fuel acc st env Hle Hmore Hcur Hw; subst after w.
  - unfold items_of. simpl. rewrite app_nil_r, length_map.
    rewrite (toArray_page T E W fetcher options (S fuel) acc st env c w');
      auto.
    eexists. apply toArray_done. apply step_exhausted; simpl; auto.
    + unfold max_reached. rewrite Hcap. reflexivity.
    + rewrite length_map. lia.
  - unfold items_of. simpl. fold (items_of cs).
    rewrite length_app, length_map, <- Nat.add_assoc.
    rewrite (toArray_page T E W fetcher options _ acc st env c w1); auto.
    destruct (IH fuel (acc ++ map node (edges c))
                (taken (length (edges c)) (received st c))
                (mkEnv w1 (calls env
                           ++ [mkParams (resolvePageSize options)
                                 (endCursorVar st)])))
      as [st' Hrun]; simpl; auto.
    { rewrite length_map. lia. }
    exists st'. rewrite Hrun. cbn [calls chain_calls].
    rewrite <- !app_assoc. reflexivity.
Qed.

(** [collectAll] over any finite chain of non-empty pages, without a
    cap: it returns the items of all the pages, page after page, after
    exactly one fetcher call per page, the first with [after]
    undefined and each next one with the [endCursor] of the page
    before.  Any fuel above the number of items is enough. *)
Theorem collectAll_walks_chain : forall options w0 pages w' fuel,
  maxItems options = None ->
  page_chain fetcher (resolvePageSize options) None w0 pages w' ->
  (length (items_of pages) < fuel)%nat ->
  exists st',
    collectAll fetcher options fuel (mkEnv w0 [])
    = Some (inl (items_of pages), st',
            mkEnv w' (chain_calls (resolvePageSize options) None pages)).
Proof.
  intros options w0 pages w' fuel Hcap Hchain Hfuel.
  unfold collectAll, cursor_toArray.
  replace fuel with (length (items_of pages)
                     + S (fuel - S (length (items_of pages))))%nat by lia.
  apply (collect_chain_from options None w0 pages w' Hcap Hchain); auto.
Qed.

Lemma page_chain_from : forall options after w pages w',
  page_chain fetcher (resolvePageSize options) after w pages w' ->
  forall fuel acc st (env : Env W),
  pgHasMore st = true ->
  pgEndCursor st = after ->
  world env = w ->
  exists st',
    page_toArray_from fetcher options (length pages + S fuel) acc st env
    = Some (inl (acc ++ pages), st',
            mkEnv w' (calls env
                      ++ chain_calls (resolvePageSize options) after pages)).
Proof.
  intros options after w pages w' Hchain.
  induction Hchain as [after w c w' Hf Hne Hlast
                      | after w c w1 cs w' Hf Hne Hnext Hrest IH];
    intros fuel acc st env Hmore Hcur Hw; subst after w.
  - assert (Hlen : (length (edges c) =? 0)%nat = false).
    { destruct (edges c); [congruence | reflexivity]. }
    simpl. unfold page_next at 1, call_fetcher.
    rewrite Hmore, Hf, Hlen. simpl.
    unfold page_next, call_fetcher. simpl. rewrite Hlast. simpl.
    eexists. reflexivity.
  - assert (Hlen : (length (edges c) =? 0)%nat = false).
    { destruct (edges c); [congruence | reflexivity]. }
    cbn [length Nat.add page_toArray_from].
    unfold page_next at 1, call_fetcher.
    rewrite Hmore, Hf, Hlen. cbn [negb].
    destruct (IH fuel (acc ++ [c])
                (mkPageState (hasNextPage (pageInfo c)) (endCursor (pageInfo c)))
                (mkEnv w1 (calls env
                           ++ [mkParams (resolvePageSize options)
                                 (pgEndCursor st)])))
      as [st' Hrun]; simpl; auto.
    exists st'. rewrite Hrun. cbn [calls chain_calls].
    rewrite <- !app_assoc. reflexivity.
Qed.

(** The page iterator's [toArray()] over the same chain: the pages
    themselves, in order, after one fetcher call per page with the
    same cursors. *)
Theorem page_toArray_walks_chain : forall options w0 pages w' fuel,
  page_chain fetcher (resolvePageSize options) None w0 pages w' ->
  (length pages < fuel)%nat ->
  exists st',
    page_toArray fetcher options fuel createPageIterator (mkEnv w0 [])
    = Some (inl pages, st',
            mkEnv w' (chain_calls (resolvePageSize options) None pages)).
Proof.
  intros options w0 pages w' fuel Hchain Hfuel. unfold page_toArray.
  replace fuel with (length pages + S (fuel - S (length pages)))%nat by lia.
  apply (page_chain_from options None w0 pages w' Hchain); auto.
Qed.

(** *** [take] against [collectAll] *)

Lemma toArray_extends : forall options fuel acc st env r st' env',
  cursor_toArray_from fetcher options fuel acc st env = Some (inl r, st', env') ->
  exists items, r = acc ++ items.
Proof.
  intros options fuel. induction fuel as [|fuel IH];
    intros acc st env r st' env' Hrun; simpl in Hrun; [discriminate|].
  destruct (cursor_next fetcher options st env) as [[[[v| |e] st1] env1]|];
    try discriminate.
  - apply IH in Hrun. destruct Hrun as [items ->].
    exists (v :: items). rewrite <- app_assoc. reflexivity.
  - inversion Hrun; subst. exists []. rewrite app_nil_r. reflexivity.
Qed.

(** Below the cap, the capped iterator steps as the uncapped one. *)
Lemma next_below_cap : forall ps m (st : CursorState T) (env : Env W),
  max_reached (mkOptions ps (Some m)) st = false ->
  cursor_next fetcher (mkOptions ps (Some m)) st env
  = cursor_next fetcher (mkOptions ps None) st env.
Proof.
  intros ps m st env Hmax. unfold cursor_next, cursor_next_fuel.
  rewrite Hmax. reflexivity.
Qed.

Lemma yield_counts : forall options st env v st' env',
  cursor_next fetcher options st env = Some (Yield v, st', env') ->
  totalReturned st' = totalReturned st + 1.
Proof.
  intros options st env v st' env' Hnext.
  apply cursor_next_step in Hnext. inversion Hnext; subst; reflexivity.
Qed.

Lemma take_simulates : forall ps m fuel acc st env items st2 env2,
  cursor_toArray_from fetcher (mkOptions ps None) fuel acc st env
  = Some (inl (acc ++ items), st2, env2) ->
  exists st1 env1,
    cursor_toArray_from fetcher (mkOptions ps (Some m)) fuel acc st env
    = Some (inl (acc ++ firstn (Z.to_nat (m - totalReturned st)) items),
            st1, env1).
Proof.
  intros ps m fuel. induction fuel as [|fuel IH];
    intros acc st env items st2 env2 Hrun; simpl in Hrun; [discriminate|].
  simpl.
  destruct (max_reached (mkOptions ps (Some m)) st) eqn:Hmax.
  - pose proof (cursor_step_next T E W fetcher _ (st, env) Done (st, env)
                  (step_capped T E W fetcher _ st env Hmax)) as Hdone.
    simpl in Hdone. rewrite Hdone.
    unfold max_reached in Hmax. simpl in Hmax. apply Z.leb_le in Hmax.
    replace (Z.to_nat (m - totalReturned st)) with 0%nat by lia.
    simpl. rewrite app_nil_r. eauto.
  - rewrite (next_below_cap ps m st env Hmax).
    destruct (cursor_next fetcher (mkOptions ps None) st env)
      as [[[[v| |e] st1] env1]|] eqn:Hnext; try discriminate.
    + pose proof (yield_counts _ _ _ _ _ _ Hnext) as Hcount.
      destruct (toArray_extends _ _ _ _ _ _ _ _ Hrun) as [items' Hitems].
      rewrite <- app_assoc in Hitems. apply app_inv_head in Hitems.
      subst items. simpl app in Hrun.
      replace (acc ++ v :: items') with ((acc ++ [v]) ++ items') in Hrun
        by (rewrite <- app_assoc; reflexivity).
      destruct (IH _ _ _ _ _ _ Hrun) as (st1' & env1' & Hcapped).
      exists st1', env1'. rewrite Hcapped, Hcount.
      unfold max_reached in Hmax. simpl in Hmax. apply Z.leb_gt in Hmax.
      replace (Z.to_nat (m - totalReturned st))
        with (S (Z.to_nat (m - (totalReturned st + 1)))) by lia.
      simpl. rewrite <- app_assoc. reflexivity.
    + injection Hrun as Hacc Hst Henv.
      assert (Hitems : items = []).
      { apply (app_inv_head acc). rewrite app_nil_r. symmetry. exact Hacc. }
      rewrite Hitems, firstn_nil, app_nil_r. eauto.
Qed.

(** [take(fetcher, count)] is the first [count] items of
    [collectAll(fetcher)].  Whenever [collectAll], without a cap,
    returns a list from some world, [take] with the same page size
    returns from that world too, with the same fuel, and what it
    returns is the first [count] items of that list (none when [count]
    is 0 or negative). *)
Theorem take_is_prefix_of_collectAll :
  forall options count fuel env all st2 env2,
  collectAll fetcher (mkOptions (pageSize options) None) fuel env
  = Some (inl all, st2, env2) ->
  exists st1 env1,
    take fetcher count options fuel env
    = Some (inl (firstn (Z.to_nat count) all), st1, env1).
Proof.
  intros options count fuel env all st2 env2 Hall.
  unfold collectAll, take, cursor_toArray in *.
  destruct (take_simulates (pageSize options) count fuel []
              createCursorPaginatedIterator env all st2 env2 Hall)
    as (st1 & env1 & Hrun).
  exists st1, env1. rewrite Hrun. simpl. rewrite Z.sub_0_r. reflexivity.
Qed.

(** What [toArray()] returns is as long as [totalReturned] grew, and
    the iterator ends in a state that [next()] calls reach. *)
Lemma toArray_counts : forall options fuel acc st env r st' env',
  cursor_toArray_from fetcher options fuel acc st env
  = Some (inl r, st', env') ->
  Z.of_nat (length r)
  = Z.of_nat (length acc) + (totalReturned st' - totalReturned st)
  /\ cursor_reaches fetcher options (st, env) (st', env').
Proof.
  intros options fuel. induction fuel as [|fuel IH];
    intros acc st env r st' env' Hrun; simpl in Hrun; [discriminate|].
  destruct (cursor_next fetcher options st env)
    as [[[[v| |e] st1] env1]|] eqn:Hnext; try discriminate.
  - pose proof (yield_counts _ _ _ _ _ _ Hnext) as Hcount.
    destruct (IH _ _ _ _ _ _ Hrun) as [Hlen Hreach].
    rewrite length_app in Hlen. simpl in Hlen. split; [lia|].
    eapply cursor_reaches_next; [exact Hnext | exact Hreach].
  - inversion Hrun; subst. split.
    + apply cursor_next_step in Hnext. inversion Hnext; subst; simpl; lia.
    + eapply cursor_reaches_next; [exact Hnext | apply cursor_reaches_here].
Qed.

(** [take] never returns more than [count] items: for [count >= 0],
    any fetcher, any page size and any fuel, a list it returns has at
    most [count] elements. *)
Theorem take_returns_at_most : forall options count fuel w0 r st' env',
  0 <= count ->
  take fetcher count options fuel (mkEnv w0 []) = Some (inl r, st', env') ->
  Z.of_nat (length r) <= count.
Proof.
  intros options count fuel w0 r st' env' Hpos Hrun.
  unfold take, cursor_toArray in Hrun.
  destruct (toArray_counts _ _ _ _ _ _ _ _ Hrun) as [Hlen Hreach].
  pose proof (cursor_cap_invariant T E W fetcher
                (mkOptions (pageSize options) (Some count)) count _ _
                eq_refl Hreach) as Hcap.
  simpl in Hlen, Hcap. lia.
Qed.

(** *** One [next()] call *)

(** A [next()] call invokes the fetcher at most once, in both modes: the
    log of calls is unchanged, together with the world, or grows by the
    one request [{first: pageSize, after: endCursor}] at its end. *)
Theorem next_fetches_at_most_once :
  (forall options (st : CursorState T) (env : Env W) r st' env',
     cursor_next fetcher options st env = Some (r, st', env') ->
     env' = env
     \/ calls env'
        = calls env ++ [mkParams (resolvePageSize options) (endCursorVar st)])
  /\ (forall options st (env : Env W) r st' env',
        page_next fetcher options st env = (r, st', env') ->
        env' = env
        \/ calls env'
           = calls env ++ [mkParams (resolvePageSize options) (pgEndCursor st)]).
Proof.
  split.
  - intros options st env r st' env' Hnext.
    apply cursor_next_step in Hnext.
    inversion Hnext; subst; auto.
  - intros options st env r st' env'. unfold page_next, call_fetcher.
    destruct (pgHasMore st); simpl.
    2:{ intro H; inversion H; subst; auto. }
    destruct (fetcher _ (world env)) as [[c|e] w'].
    + destruct (length (edges c) =? 0)%nat; intro H; inversion H; subst; auto.
    + intro H; inversion H; subst; auto.
Qed.


(** Along any run of [next()] calls on a fresh item iterator, the index
    never passes the end of the buffer ([currentIndex <= length
    currentItems]) and [totalReturned] is never negative. *)
Theorem buffer_index_in_bounds : forall options w0 s,
  cursor_reaches fetcher options (createCursorPaginatedIterator, mkEnv w0 []) s ->
  (currentIndex (fst s) <= length (currentItems (fst s)))%nat
  /\ 0 <= totalReturned (fst s).
Proof.
  intros options w0 s Hrun.
  eapply (cursor_reaches_ind_step T E W fetcher options
            (fun x => (currentIndex (fst x) <= length (currentItems (fst x)))%nat
                      /\ 0 <= totalReturned (fst x)));
    [|exact Hrun|simpl; split; lia].
  intros s0 r s0' [Hidx Htot] Hstep.
  inversion Hstep; subst; simpl in *; try (split; [lia|lia]).
  - split; [|lia].
    match goal with
    | H : nth_error ?l ?n = Some _ |- _ =>
        assert (Hlt : (n < length l)%nat)
          by (apply nth_error_Some; rewrite H; discriminate)
    end.
    lia.
  - match goal with H : edges _ = _ :: _ |- _ => rewrite H end.
    simpl. split; lia.
Qed.

(** An empty first page: [toArray()] returns the empty list after
    exactly one fetcher call, in both modes and whatever the page says
    of [hasNextPage], provided the cap, if any, is positive. *)
Theorem empty_first_page : forall options w0 c w1 fuel,
  fetcher (mkParams (resolvePageSize options) None) w0 = (inl c, w1) ->
  edges c = [] ->
  (forall m, maxItems options = Some m -> 0 < m) ->
  (exists st',
     cursor_toArray fetcher options (S fuel) createCursorPaginatedIterator
       (mkEnv w0 [])
     = Some (inl [], st', mkEnv w1 [mkParams (resolvePageSize options) None]))
  /\ (exists st',
        page_toArray fetcher options (S fuel) createPageIterator (mkEnv w0 [])
        = Some (inl [], st',
                mkEnv w1 [mkParams (resolvePageSize options) None])).
Proof.
  intros options w0 c w1 fuel Hf Hc Hcap. split.
  - eexists. unfold cursor_toArray. apply toArray_done.
    apply (step_fetch_empty T E W fetcher options
             createCursorPaginatedIterator (mkEnv w0 []) c w1); auto.
    unfold max_reached. destruct (maxItems options) as [m|] eqn:Hm;
      [|reflexivity].
    apply Z.leb_gt. simpl. apply Hcap. reflexivity.
  - eexists. unfold page_toArray. simpl.
    unfold page_next, call_fetcher. simpl. rewrite Hf, Hc. reflexivity.
Qed.

End AnyFetcher.

(** *** Concrete runs *)

Local Open Scope string_scope.

(** Three pages, [a b], [c] and [d e], served in a chain. *)
Lemma three_pages_chain :
  page_chain
    (scripted [page_of ["a"; "b"] true (Some "b");
               page_of ["c"] true (Some "c");
               page_of ["d"; "e"] false None])
    50 None 0%nat
    [page_of ["a"; "b"] true (Some "b");
     page_of ["c"] true (Some "c");
     page_of ["d"; "e"] false None]
    3%nat.
Proof.
  eapply chain_more; [reflexivity | discriminate | reflexivity |].
  eapply chain_more; [reflexivity | discriminate | reflexivity |].
  eapply chain_last; [reflexivity | discriminate | reflexivity].
Defined.

Lemma collectAll_walks_chain_witness :
  exists st',
    collectAll
      (scripted [page_of ["a"; "b"] true (Some "b");
                 page_of ["c"] true (Some "c");
                 page_of ["d"; "e"] false None])
      (mkOptions None None) 6 (mkEnv 0%nat [])
    = Some (inl ["a"; "b"; "c"; "d"; "e"], st',
            mkEnv 3%nat [mkParams 50 None; mkParams 50 (Some "b");
                         mkParams 50 (Some "c")]).
Proof.
  apply (collectAll_walks_chain string string nat _ (mkOptions None None)
           0%nat _ 3%nat 6 eq_refl three_pages_chain).
  simpl. lia.
Defined.

Lemma page_toArray_walks_chain_witness :
  exists st',
    page_toArray
      (scripted [page_of ["a"; "b"] true (Some "b");
                 page_of ["c"] true (Some "c");
                 page_of ["d"; "e"] false None])
      (mkOptions None None) 4 createPageIterator (mkEnv 0%nat [])
    = Some (inl [page_of ["a"; "b"] true (Some "b");
                 page_of ["c"] true (Some "c");
                 page_of ["d"; "e"] false None], st',
            mkEnv 3%nat [mkParams 50 None; mkParams 50 (Some "b");
                         mkParams 50 (Some "c")]).
Proof.
  apply (page_toArray_walks_chain string string nat _ (mkOptions None None)
           0%nat _ 3%nat 4 three_pages_chain).
  simpl. lia.
Defined.

(** The first four of the five items. *)
Lemma take_is_prefix_of_collectAll_witness :
  exists st1 env1,
    take
      (scripted [page_of ["a"; "b"] true (Some "b");
                 page_of ["c"] true (Some "c");
                 page_of ["d"; "e"] false None])
      4 (mkOptions None None) 6 (mkEnv 0%nat [])
    = Some (inl (firstn (Z.to_nat 4) ["a"; "b"; "c"; "d"; "e"]), st1, env1).
Proof.
  eapply (take_is_prefix_of_collectAll string string nat _
            (mkOptions None None) 4 6 (mkEnv 0%nat [])).
  reflexivity.
Defined.

Lemma take_returns_at_most_witness :
  Z.of_nat (length ["a"; "b"; "c"; "d"]) <= 4.
Proof.
  eapply (take_returns_at_most string string nat
            (scripted [page_of ["a"; "b"] true (Some "b");
                       page_of ["c"] true (Some "c");
                       page_of ["d"; "e"] false None])
            (mkOptions None None) 4 6 0%nat).
  - lia.
  - reflexivity.
Defined.

Lemma next_fetches_at_most_once_witness :
  let f := scripted [page_of ["a"] false None] in
  exists r st' env',
    cursor_next f (mkOptions None None) createCursorPaginatedIterator
      (mkEnv 0%nat []) = Some (r, st', env')
    /\ (env' = mkEnv 0%nat []
        \/ calls env' = ([] ++ [mkParams 50 None])%list).
Proof.
  intro f. do 3 eexists. split; [reflexivity|].
  apply (proj1 (next_fetches_at_most_once string string nat f)
           (mkOptions None None) createCursorPaginatedIterator
           (mkEnv 0%nat []) _ _ _ eq_refl).
Defined.


Lemma buffer_index_in_bounds_witness :
  let f := scripted [page_of ["a"; "b"] false None] in
  exists s,
    cursor_reaches f (mkOptions None None)
      (createCursorPaginatedIterator, mkEnv 0%nat []) s
    /\ currentIndex (fst s) = 1%nat
    /\ (currentIndex (fst s) <= length (currentItems (fst s)))%nat.
Proof.
  intro f.
  assert (Hrun : cursor_reaches f (mkOptions None None)
                   (createCursorPaginatedIterator, mkEnv 0%nat [])
                   (advance (received createCursorPaginatedIterator
                               (page_of ["a"; "b"] false None)),
                    mkEnv 1%nat [mkParams 50 None])).
  { eapply cursor_reaches_next; [reflexivity | apply cursor_reaches_here]. }
  eexists. split; [exact Hrun|]. split; [reflexivity|].
  apply (proj1 (buffer_index_in_bounds string string nat f
                  (mkOptions None None) 0%nat _ Hrun)).
Defined.

Lemma empty_first_page_witness :
  let f := scripted [page_of [] true (Some "k"); page_of ["a"] false None] in
  exists st',
    cursor_toArray f (mkOptions None (Some 5)) 1 createCursorPaginatedIterator
      (mkEnv 0%nat [])
    = Some (inl [], st', mkEnv 1%nat [mkParams 50 None]).
Proof.
  intro f.
  refine (proj1 (empty_first_page string string nat f (mkOptions None (Some 5))
                   0%nat (page_of [] true (Some "k")) 1%nat 0%nat
                   eq_refl eq_refl _)).
  intros m Hm. inversion Hm. lia.
Defined.

End PaginationMore.

(* ================================================================== *)
(** * Error classification and the client's retries *)
(* ================================================================== *)

Module ClientProofs.
Import Errors.
Import Client.

(** The codes of the [switch] are told apart one by one. *)
Ltac split_codes :=
  repeat match goal with
         | |- context [String.eqb ?c ?s] =>
             destruct (String.eqb_spec c s); [subst; simpl in *|]
         end.

(** Which failures [execute] retries.  The error [handleError] makes of
    a thrown value passes [execute]'s [shouldRetry] exactly in these
    cases: the response carries GraphQL errors and the code of the
    first one ([extensions.code], or UNKNOWN when missing or empty) is
    RATE_LIMITED, INTERNAL_SERVER_ERROR, GRAPHQL_PARSE_FAILED or
    GRAPHQL_VALIDATION_FAILED; or it carries none, the thrown [code] is
    none of ECONNREFUSED, ENOTFOUND, ETIMEDOUT, TIMEOUT, and the HTTP
    status is 429 or at least 500.  GraphQL errors come first: with
    them, the status and the thrown [code] are not looked at. *)
Theorem retry_decision : forall timeout error,
  isRetryable (handleError timeout error) = true
  <-> match responseErrors error with
      | primary :: _ =>
          one_of (primaryCode primary)
            ["RATE_LIMITED"; "INTERNAL_SERVER_ERROR"; "GRAPHQL_PARSE_FAILED";
             "GRAPHQL_VALIDATION_FAILED"]%string = true
      | [] =>
          code_is error ["ECONNREFUSED"; "ENOTFOUND"; "ETIMEDOUT"; "TIMEOUT"]%string
          = false
          /\ exists status,
               responseStatus error = Some status
               /\ (status = 429 \/ 500 <= status)
      end.
Proof.
  intros timeout error. unfold handleError.
  destruct (responseErrors error) as [|primary rest].
  - unfold code_is. destruct (thrownCode error) as [code|].
    + unfold one_of. simpl existsb.
      destruct (String.eqb_spec code "ECONNREFUSED"); [simpl; split; [discriminate|intros [H _]; discriminate]|].
      destruct (String.eqb_spec code "ENOTFOUND"); [simpl; split; [discriminate|intros [H _]; discriminate]|].
      destruct (String.eqb_spec code "ETIMEDOUT"); [simpl; split; [discriminate|intros [H _]; discriminate]|].
      destruct (String.eqb_spec code "TIMEOUT"); [simpl; split; [discriminate|intros [H _]; discriminate]|].
      simpl. destruct (responseStatus error) as [status|].
      * destruct (Z.eqb_spec status 0); [subst; simpl; split;
          [discriminate | intros [_ (st & Hst & Hor)]; inversion Hst; lia]|].
        destruct (Z.eqb_spec status 429); [subst; simpl; split;
          [intros _; split; [reflexivity | exists 429; auto] | reflexivity]|].
        destruct (Z.leb_spec 500 status); simpl; split;
          try discriminate; try reflexivity.
        -- intros _. split; [reflexivity|]. exists status. auto.
        -- intros [_ (st & Hst & Hor)]. inversion Hst; lia.
      * simpl. split; [discriminate|].
        intros [_ (st & Hst & _)]. discriminate.
    + simpl. destruct (responseStatus error) as [status|].
      * destruct (Z.eqb_spec status 0); [subst; simpl; split;
          [discriminate | intros [_ (st & Hst & Hor)]; inversion Hst; lia]|].
        destruct (Z.eqb_spec status 429); [subst; simpl; split;
          [intros _; split; [reflexivity | exists 429; auto] | reflexivity]|].
        destruct (Z.leb_spec 500 status); simpl; split;
          try discriminate; try reflexivity.
        -- intros _. split; [reflexivity|]. exists status. auto.
        -- intros [_ (st & Hst & Hor)]. inversion Hst; lia.
      * simpl. split; [discriminate|].
        intros [_ (st & Hst & _)]. discriminate.
  - unfold createErrorFromGraphQL, one_of. simpl existsb.
    generalize (primaryCode primary). intro code.
    split_codes; simpl; split; try reflexivity; try discriminate; auto.
Qed.

(** A 429 without GraphQL errors is retried; with GraphQL errors of
    code UNAUTHENTICATED it is not. *)
Lemma retry_decision_witness :
  isRetryable
    (handleError 30000
       (mkThrown true (Some (mkRawResponse None (Some 429))) None None))
  = true
  /\ isRetryable
       (handleError 30000
          (mkThrown true
             (Some (mkRawResponse
                      (Some [mkGraphQLError "denied" None None
                               (Some (mkExtension "UNAUTHENTICATED" None "denied"))])
                      (Some 429)))
             None None))%string
     = false.
Proof.
  split; [|reflexivity].
  apply (proj2 (retry_decision 30000
                  (mkThrown true (Some (mkRawResponse None (Some 429)))
                     None None))).
  simpl. split; [reflexivity|]. exists 429. split; [reflexivity|]. left. reflexivity.
Defined.

(** The class of a classified error goes by where it comes from.  When
    the response carried GraphQL errors the error is built from the
    first of them: it has its message, keeps the whole list and the
    response, and is never a network or timeout error, whatever the
    thrown [code].  When it carried none, the error is never an
    authentication, not-found or validation error, whatever the HTTP
    status, and it keeps no GraphQL errors. *)
Theorem error_class_by_source : forall timeout error,
  let classified := handleError timeout error in
  match responseErrors error with
  | primary :: rest =>
      errMessage classified = gqlMessage primary
      /\ errGraphqlErrors classified = Some (primary :: rest)
      /\ errResponse classified = option_map OfResponse (thrownResponse error)
      /\ errClass classified <> NetworkErrorClass
      /\ errClass classified <> TimeoutErrorClass
  | [] =>
      errGraphqlErrors classified = None
      /\ errClass classified <> AuthenticationErrorClass
      /\ errClass classified <> NotFoundErrorClass
      /\ errClass classified <> ValidationErrorClass
  end.
Proof.
  intros timeout error classified. subst classified. unfold handleError.
  destruct (responseErrors error) as [|primary rest].
  - destruct (code_is error _); [simpl; repeat split; discriminate|].
    destruct (code_is error _); [simpl; repeat split; discriminate|].
    destruct (responseStatus error) as [status|];
      [|simpl; repeat split; discriminate].
    destruct (status =? 0); [simpl; repeat split; discriminate|].
    destruct (status =? 429); [simpl; repeat split; discriminate|].
    destruct (500 <=? status); simpl; repeat split; discriminate.
  - unfold createErrorFromGraphQL.
    repeat match goal with
           | |- context [if one_of ?c ?l then _ else _] =>
               destruct (one_of c l)
           end; simpl; repeat split; discriminate.
Qed.

Section ExecuteFacts.

Variables T N : Type.
Variable request : N -> Z -> (T + Thrown) * N * Z.
Variable timer : Q -> Z -> Z.
Variable random : nat -> Q.
Variable timeout : Z.

(** [execute] retries transient failures only, and within its budget.
    With [maxRetries >= 0] in the limiter's configuration, [execute]
    settles after at most [maxRetries + 1] requests, to the result of
    the last one (its value, or its classified error thrown as it is);
    every earlier request failed with a rate-limit or server error;
    there was one backoff wait per earlier request; and a last request
    that failed was not retryable or was the [maxRetries + 1]-th. *)
Theorem execute_retries_transient_only : forall (w : World N),
  0 <= RateLimit.maxRetries (RateLimit.config (limiter w)) ->
  exists out env' earlier lastr,
    execute request timer random timeout w = Some (out, env')
    /\ Retry.attempts env' = earlier ++ [lastr]
    /\ out = Retry.settle lastr
    /\ Forall (fun r => exists e, r = inr e /\ isRetryable e = true) earlier
    /\ Z.of_nat (length (Retry.attempts env'))
       <= RateLimit.maxRetries (RateLimit.config (limiter w)) + 1
    /\ length (Retry.sleeps env') = length earlier
    /\ (forall e, lastr = inr e ->
        isRetryable e = false
        \/ Z.of_nat (length (Retry.attempts env'))
           = RateLimit.maxRetries (RateLimit.config (limiter w)) + 1).
Proof.
  intros w Hpos. unfold execute.
  destruct (RateLimit.waitIfNeeded (clock w) (limiter w)) as [waited limiter1].
  match goal with
  | |- context [Retry.retryWithBackoff _ _ _ ?cfg (Retry.mkEnv ?w1 [] [])] =>
      destruct (RetryMore.retry_fresh_shape T SuperOpsError (World N)
                  (executeRequest request timeout) random (backoffSleep timer)
                  cfg w1 Hpos)
        as (out & env' & earlier & lastr & Hrun & Hatt & Hout & Hall & Hlen
            & Hsleeps & Hend)
  end.
  exists out, env', earlier, lastr.
  split; [exact Hrun|]. split; [exact Hatt|]. split; [exact Hout|].
  split.
  { eapply Forall_impl; [|exact Hall]. intros r (e & Hr & Href).
    exists e. split; [exact Hr|].
    unfold Retry.refuses, executeRetryConfig in Href. simpl in Href.
    destruct (isRetryable e); [reflexivity | discriminate]. }
  split; [exact Hlen|].
  split; [rewrite Hsleeps, length_map, length_seq; reflexivity|].
  intros e He. destruct (Hend e He) as [Href|Hmax]; [left|right; exact Hmax].
  unfold Retry.refuses, executeRetryConfig in Href. simpl in Href.
  destruct (isRetryable e); [discriminate | reflexivity].
Qed.

(** [execute] gives up at once on a failure that is not transient.
    With [maxRetries >= 0]: when the network answers the first request
    with a thrown value whose classified error is neither a rate-limit
    nor a server error, [execute] rejects with that classified error
    after exactly one request and no backoff wait. *)
Theorem execute_gives_up_on_permanent_failure :
  forall (w : World N) error net',
  0 <= RateLimit.maxRetries (RateLimit.config (limiter w)) ->
  (forall t, exists t', request (net w) t = (inr error, net', t')) ->
  isRetryable (handleError timeout error) = false ->
  exists env',
    execute request timer random timeout w
    = Some (Retry.Rejects (Some (handleError timeout error)), env')
    /\ Retry.attempts env' = [inr (handleError timeout error)]
    /\ Retry.sleeps env' = []
    /\ net (Retry.world env') = net'.
Proof.
  intros w error net' Hpos Hreq Hperm. unfold execute.
  destruct (RateLimit.waitIfNeeded (clock w) (limiter w)) as [waited limiter1].
  set (w1 := match waited with
             | Some delay =>
                 mkWorld (timer (inject_Z delay) (clock w)) limiter1 (net w)
             | None => mkWorld (clock w) limiter1 (net w)
             end).
  assert (Hnet : net w1 = net w) by (subst w1; destruct waited; reflexivity).
  destruct (Hreq (clock w1)) as [t' Ht'].
  unfold Retry.retryWithBackoff, executeRetryConfig. cbn [Retry.maxRetries].
  destruct (Z.to_nat (RateLimit.maxRetries (RateLimit.config (limiter w)) + 1))
    as [|fuel] eqn:Hfuel; [lia|].
  cbn [Retry.retry_loop Retry.maxRetries Retry.world Retry.attempts
       Retry.sleeps].
  assert (Hcond : (0 <=? RateLimit.maxRetries (RateLimit.config (limiter w)))
                  = true) by (apply Z.leb_le; exact Hpos).
  rewrite Hcond. unfold executeRequest at 1. rewrite Hnet, Ht'.
  unfold Retry.refuses. cbn [Retry.shouldRetry]. rewrite Hperm. cbn [negb].
  eexists. repeat split; reflexivity.
Qed.

End ExecuteFacts.

(** An authentication failure: one request, no wait. *)
Lemma execute_gives_up_on_permanent_failure_witness :
  let denied :=
    mkThrown true
      (Some (mkRawResponse
               (Some [mkGraphQLError "denied" None None
                        (Some (mkExtension "FORBIDDEN" None "denied"))])
               (Some 403)))
      None None in
  let w := mkWorld 0 (RateLimit.create RateLimit.DEFAULT_RATE_LIMIT_CONFIG)
             0%nat in
  exists env',
    execute (refusing denied) (fun ms t => t + Qceiling ms) (fun _ => 0%Q)
      30000 w
    = Some (Retry.Rejects (Some (handleError 30000 denied)), env')
    /\ Retry.attempts env' = [inr (handleError 30000 denied)]
    /\ Retry.sleeps env' = []
    /\ net (Retry.world env') = 1%nat.
Proof.
  intros denied w.
  apply (execute_gives_up_on_permanent_failure unit nat (refusing denied)
           (fun ms t => t + Qceiling ms) (fun _ => 0%Q) 30000 w denied 1%nat).
  - simpl. lia.
  - intro t. exists (t + 1). reflexivity.
  - reflexivity.
Defined.

(** A server that always answers 503: four requests with
    [maxRetries = 3]. *)
Lemma execute_retries_transient_only_witness :
  let busy := mkThrown true (Some (mkRawResponse None (Some 503))) None None in
  let w := mkWorld 0 (RateLimit.create RateLimit.DEFAULT_RATE_LIMIT_CONFIG)
             0%nat in
  exists out env' earlier lastr,
    execute (refusing busy) (fun ms t => t + Qceiling ms) (fun _ => 0%Q)
      30000 w = Some (out, env')
    /\ Retry.attempts env' = earlier ++ [lastr]
    /\ out = Retry.settle lastr
    /\ Forall (fun r => exists e, r = inr e /\ isRetryable e = true) earlier
    /\ Z.of_nat (length (Retry.attempts env')) <= 3 + 1
    /\ length (Retry.sleeps env') = length earlier
    /\ (forall e, lastr = inr e ->
        isRetryable e = false
        \/ Z.of_nat (length (Retry.attempts env')) = 3 + 1).
Proof.
  intros busy w.
  apply (execute_retries_transient_only unit nat (refusing busy)
           (fun ms t => t + Qceiling ms) (fun _ => 0%Q) 30000 w).
  simpl. lia.
Defined.

End ClientProofs.

(* ================================================================== *)
(** * The list iterators of the resources *)
(* ================================================================== *)

Module ResourcesProofs.
Import Pagination.
Import PaginationProofs.
Import Resources.

Section ListFacts.

Variables T E W F O : Type.
Variable queryFn : ListParams F O -> W -> (Connection T + E) * W.
Variable params : option (ListSelection F O).

(** Every query a resource's list iterator sends asks for 50 items and
    carries the caller's filter and order unchanged, whatever the run
    of [next()] calls; and the queries are as many as the engine's
    fetcher calls, with the same [after] cursors. *)
Theorem list_queries_are_well_formed : forall w0 s,
  cursor_reaches (listFetcher (logged queryFn) params) listOptions
    (createCursorPaginatedIterator, mkEnv (w0, []) []) s ->
  Forall (well_formed_query params) (snd (world (snd s)))
  /\ map listAfter (snd (world (snd s))) = map after (calls (snd s)).
Proof.
  intros w0 s Hrun.
  eapply (cursor_reaches_ind_step T E (W * list (ListParams F O))
            (listFetcher (logged queryFn) params) listOptions
            (fun x => Forall (well_formed_query params) (snd (world (snd x)))
                      /\ map listAfter (snd (world (snd x)))
                         = map after (calls (snd x))));
    [|exact Hrun|simpl; split; [constructor|reflexivity]].
  intros s0 r s0' [Hall Hafter] Hstep.
  inversion Hstep; subst; simpl in *; auto;
    match goal with
    | Hf : listFetcher _ _ _ _ = _ |- _ =>
        unfold listFetcher, logged in Hf;
        destruct (queryFn _ (fst (world env))) as [res w1];
        inversion Hf; subst; clear Hf
    end; simpl; (split;
      [apply Forall_app; split; [exact Hall|];
       constructor; [|constructor]; repeat split
      |rewrite !map_app, Hafter; reflexivity]).
Qed.

End ListFacts.

(** A filtered listing over one page: one query, for 50 items, with the
    filter. *)
Lemma list_queries_are_well_formed_witness :
  let sel := Some (mkListSelection (O := unit) (Some 7%nat) None) in
  let q : ListParams nat unit -> nat -> (Connection string + string) * nat :=
    fun _ k => (inl (page_of ["a"%string] false None), S k) in
  exists s,
    cursor_reaches (listFetcher (logged q) sel) listOptions
      (createCursorPaginatedIterator, mkEnv (0%nat, []) []) s
    /\ snd (world (snd s)) = [mkListParams (Some 50) None (Some 7%nat) None]
    /\ Forall (well_formed_query sel) (snd (world (snd s))).
Proof.
  intros sel q.
  assert (Hrun : cursor_reaches (listFetcher (logged q) sel) listOptions
                   (createCursorPaginatedIterator, mkEnv (0%nat, []) [])
                   (advance (received createCursorPaginatedIterator
                               (page_of ["a"%string] false None)),
                    mkEnv (1%nat, [mkListParams (Some 50) None (Some 7%nat) None])
                      [mkParams 50 None])).
  { eapply cursor_reaches_next; [reflexivity | apply cursor_reaches_here]. }
  eexists. split; [exact Hrun|]. split; [reflexivity|].
  apply (proj1 (list_queries_are_well_formed string string nat nat unit q sel
                  0%nat _ Hrun)).
Defined.

End ResourcesProofs.
